(** * RdkafkaProducer: the boxcar-batching Kafka producer

    A shallow embedding of
    [routerlicious/functions/deli/src/rdkafka/producer.ts].

    The class keeps, per stream key, an ordered queue of pending boxcars,
    appends every submitted message to the tail boxcar of its key, and
    hands all boxcars to the Kafka client on a flush that is deferred with
    [setImmediate].

    Modelling conventions.
    - A JavaScript string is the list of its UTF-16 code units, so that
      [message.length] is the length of the list.
    - JavaScript numbers that only ever hold integers ([size],
      [pendingMessageCount], [message.length]) are in [Z], and are taken
      to stay in the range where double precision is exact.  The configured
      maximum message size is a double, NaN and the infinities included;
      its product with [0.75] is the IEEE 754 product, rounded to the
      nearest double, and the limit is stored as the exact value of that
      double, with which the integers are compared.
    - [Map] is an association list in key insertion order with unique keys,
      since the flush iterates the map in that order.
    - Objects that are shared by reference ([Deferred], the handle returned
      by [setImmediate]) are addresses into a store kept in the state.
    - [producer.produce] is taken to return normally; the Kafka client is
      represented by the log of the calls made to it.
    - [close] only disconnects the Kafka client and touches none of the
      state kept here; it is left out, as are the logging handlers. *)

From Stdlib Require Import List Permutation ZArith QArith Bool Lia String Ascii Arith.
From Stdlib Require Import SpecFloat.
Import ListNotations.

Local Open Scope Z_scope.

(** ** JavaScript strings *)

Definition JsString := list N.

Definition js (s : string) : JsString :=
  map N_of_ascii (list_ascii_of_string s).

(** [s.length] *)
Definition strlen (s : JsString) : Z := Z.of_nat (List.length s).

Fixpoint str_eqb (a b : JsString) : bool :=
  match a, b with
  | [], [] => true
  | x :: a', y :: b' => N.eqb x y && str_eqb a' b'
  | _, _ => false
  end.

(** The code unit of ["/"]. *)
Definition slash : N := 47%N.

(** [`${tenantId}/${documentId}`] *)
Definition streamKey (tenantId documentId : JsString) : JsString :=
  tenantId ++ slash :: documentId.

(** ** Numbers *)

(** [Number.MAX_VALUE], which is the integer [2^1024 - 2^971]. *)
Definition MaxBatchSize : Z := 2 ^ 1024 - 2 ^ 971.

(** The value of a number: not a number, an infinity, or a rational. *)
Inductive JsNumber :=
| NaN
| NegInfinity
| PosInfinity
| Num (q : Q).

(** The number of an integer. *)
Definition ofZ (z : Z) : JsNumber := Num (inject_Z z).

(** [x <= y] and [x < y] on numbers; a comparison with NaN is false. *)
Definition js_le (x y : JsNumber) : bool :=
  match x, y with
  | NaN, _ => false
  | _, NaN => false
  | NegInfinity, _ => true
  | _, PosInfinity => true
  | PosInfinity, _ => false
  | Num _, NegInfinity => false
  | Num a, Num b => Qle_bool a b
  end.

Definition js_lt (x y : JsNumber) : bool :=
  match x, y with
  | NaN, _ => false
  | _, NaN => false
  | _, NegInfinity => false
  | PosInfinity, _ => false
  | NegInfinity, _ => true
  | Num _, PosInfinity => true
  | Num a, Num b => negb (Qle_bool b a)
  end.

(** The number [x] is the rational [q]. *)
Definition isNumber (x : JsNumber) (q : Q) : Prop :=
  match x with
  | Num a => (a == q)%Q
  | _ => False
  end.

(** [x >= y] and [x > y] on numbers. *)
Definition num_ge (x y : JsNumber) : bool := js_le y x.
Definition num_gt (x y : JsNumber) : bool := js_lt y x.

(** Doubles: IEEE 754 binary64, with 53 bits of precision. *)
Definition prec : Z := 53.
Definition emax : Z := 1024.

(** The double [0.75], which is [3 * 2^51 * 2^-53]. *)
Definition three_quarters : spec_float :=
  S754_finite false 6755399441055744 (-53).

(** [2^e] *)
Definition pow2 (e : Z) : Q :=
  match e with
  | Z0 => 1%Q
  | Zpos p => inject_Z (Z.pow_pos 2 p)
  | Zneg p => (1 # Pos.pow 2 p)%Q
  end.

(** The value of a double. *)
Definition valueOf (x : spec_float) : JsNumber :=
  match x with
  | S754_zero _ => Num 0
  | S754_infinity s => if s then NegInfinity else PosInfinity
  | S754_nan => NaN
  | S754_finite s m e =>
      Num (Qred (inject_Z (if s then Zneg m else Zpos m) * pow2 e))
  end.

(** [maxMessageSize * 0.75], the product of two doubles. *)
Definition effectiveLimit (maxMessageSize : spec_float) : JsNumber :=
  valueOf (SFmul prec emax maxMessageSize three_quarters).

(** ** Promises *)

Definition KafkaError := Z.
Definition Metadata := JsString.

(** The address of a [Deferred<void>] object. *)
Definition Deferred := nat.

Inductive PromiseState :=
| Pending
| Fulfilled
| Rejected (reason : KafkaError).

(** Modelled from the spec: the class [Deferred] of [@prague/utils] is not
    part of the sources.  A completion handle is a promise that "resolves
    or rejects exactly once": settling a pending handle records the
    outcome, settling a settled handle changes nothing. *)
Fixpoint settle (d : Deferred) (v : PromiseState) (heap : list PromiseState)
  : list PromiseState :=
  match heap, d with
  | [], _ => []
  | Pending :: h, O => v :: h
  | p :: h, O => p :: h
  | p :: h, S d' => p :: settle d' v h
  end.

Definition promiseState (heap : list PromiseState) (d : Deferred) : PromiseState :=
  nth d heap Pending.

(** ** Records handed to the Kafka client *)

(** Modelled from the spec: the constant [BoxcarType] of
    [@prague/routerlicious/dist/core] is not part of the sources; the wire
    record carries [type: "boxcar"]. *)
Definition BoxcarType : JsString := js "boxcar".

Record IBoxcarMessage := mkBoxcarMessage {
  bm_contents : list JsString;
  bm_documentId : JsString;
  bm_tenantId : JsString;
  bm_type : JsString
}.

(** [Buffer.from(JSON.stringify(boxcarMessage))], kept symbolic. *)
Inductive JsonText := JSON_stringify (v : IBoxcarMessage).
Inductive Buffer := Buffer_from (s : JsonText).

Definition payloadMessage (b : Buffer) : IBoxcarMessage :=
  match b with Buffer_from (JSON_stringify v) => v end.

(** One call [producer.produce(topic, partition, message, key, timestamp, opaque)]. *)
Record ProduceCall := mkProduceCall {
  pc_topic : JsString;
  pc_partition : option Z;
  pc_message : Buffer;
  pc_key : JsString;
  pc_timestamp : Z;
  pc_opaque : Deferred
}.

Record DeliveryReport := mkDeliveryReport {
  opaque : Deferred
}.

(** ** Pending boxcars and the map of queues *)

Record IPendingBoxcar := mkPendingBoxcar {
  bc_deferred : Deferred;
  bc_documentId : JsString;
  bc_messages : list JsString;
  bc_size : Z;
  bc_tenantId : JsString
}.

Section JsMap.
Context {V : Type}.

Definition JsMap := list (JsString * V).

Fixpoint Map_has (k : JsString) (m : JsMap) : bool :=
  match m with
  | [] => false
  | (k', _) :: m' => str_eqb k k' || Map_has k m'
  end.

Fixpoint Map_get (k : JsString) (m : JsMap) : option V :=
  match m with
  | [] => None
  | (k', v) :: m' => if str_eqb k k' then Some v else Map_get k m'
  end.

(** [m.set(k, v)]: a present key keeps its place, a new key goes last. *)
Fixpoint Map_set (k : JsString) (v : V) (m : JsMap) : JsMap :=
  match m with
  | [] => [(k, v)]
  | (k', v') :: m' =>
      if str_eqb k k' then (k', v) :: m' else (k', v') :: Map_set k v m'
  end.
End JsMap.

Arguments JsMap V : clear implicits.

(** ** The producer and the part of the runtime it touches *)

Definition Immediate := nat.

Record State := mkState {
  (* fields of the class *)
  messages : JsMap (list IPendingBoxcar);
  producer : list ProduceCall;
  connected : bool;
  sendPending : option Immediate;
  pendingMessageCount : Z;
  topic : JsString;
  maxMessageSize : JsNumber;
  (* runtime *)
  immediateQueue : list Immediate;
  nextImmediate : Immediate;
  heap : list PromiseState;
  clock : nat -> Z;
  ticks : nat
}.

Definition set_messages (v : JsMap (list IPendingBoxcar)) (s : State) : State :=
  mkState v (producer s) (connected s) (sendPending s) (pendingMessageCount s)
          (topic s) (maxMessageSize s) (immediateQueue s) (nextImmediate s)
          (heap s) (clock s) (ticks s).

Definition set_producer (v : list ProduceCall) (s : State) : State :=
  mkState (messages s) v (connected s) (sendPending s) (pendingMessageCount s)
          (topic s) (maxMessageSize s) (immediateQueue s) (nextImmediate s)
          (heap s) (clock s) (ticks s).

Definition set_connected (v : bool) (s : State) : State :=
  mkState (messages s) (producer s) v (sendPending s) (pendingMessageCount s)
          (topic s) (maxMessageSize s) (immediateQueue s) (nextImmediate s)
          (heap s) (clock s) (ticks s).

Definition set_sendPending (v : option Immediate) (s : State) : State :=
  mkState (messages s) (producer s) (connected s) v (pendingMessageCount s)
          (topic s) (maxMessageSize s) (immediateQueue s) (nextImmediate s)
          (heap s) (clock s) (ticks s).

Definition set_pendingMessageCount (v : Z) (s : State) : State :=
  mkState (messages s) (producer s) (connected s) (sendPending s) v
          (topic s) (maxMessageSize s) (immediateQueue s) (nextImmediate s)
          (heap s) (clock s) (ticks s).

Definition set_immediateQueue (v : list Immediate) (s : State) : State :=
  mkState (messages s) (producer s) (connected s) (sendPending s)
          (pendingMessageCount s) (topic s) (maxMessageSize s) v
          (nextImmediate s) (heap s) (clock s) (ticks s).

Definition set_nextImmediate (v : Immediate) (s : State) : State :=
  mkState (messages s) (producer s) (connected s) (sendPending s)
          (pendingMessageCount s) (topic s) (maxMessageSize s)
          (immediateQueue s) v (heap s) (clock s) (ticks s).

Definition set_heap (v : list PromiseState) (s : State) : State :=
  mkState (messages s) (producer s) (connected s) (sendPending s)
          (pendingMessageCount s) (topic s) (maxMessageSize s)
          (immediateQueue s) (nextImmediate s) v (clock s) (ticks s).

Definition set_ticks (v : nat) (s : State) : State :=
  mkState (messages s) (producer s) (connected s) (sendPending s)
          (pendingMessageCount s) (topic s) (maxMessageSize s)
          (immediateQueue s) (nextImmediate s) (heap s) (clock s) v.

(** ** Runtime services *)

(** [Date.now()]: the successive readings of the wall clock are [clock 0],
    [clock 1], ... *)
Definition Date_now (s : State) : Z * State :=
  (clock s (ticks s), set_ticks (S (ticks s)) s).

(** [new Deferred<void>()] *)
Definition new_Deferred (s : State) : Deferred * State :=
  (List.length (heap s), set_heap (heap s ++ [Pending]) s).

(** [setImmediate(callback)]; every callback this class registers is the
    one of [requestSend], run by [runImmediate] below. *)
Definition setImmediate (s : State) : Immediate * State :=
  let i := nextImmediate s in
  (i, set_nextImmediate (S i) (set_immediateQueue (immediateQueue s ++ [i]) s)).

(** [clearImmediate(handle)]; [clearImmediate(undefined)] does nothing. *)
Definition clearImmediate (h : option Immediate) (s : State) : State :=
  match h with
  | None => s
  | Some i =>
      set_immediateQueue (filter (fun j => negb (Nat.eqb j i)) (immediateQueue s)) s
  end.

(** [this.producer.produce(...)] *)
Definition produce (topic : JsString) (partition : option Z) (message : Buffer)
           (key : JsString) (timestamp : Z) (opaque : Deferred) (s : State) : State :=
  set_producer
    (producer s ++ [mkProduceCall topic partition message key timestamp opaque]) s.

(** ** The methods of the class *)

(** [constructor(endpoint, topic, maxMessageSize)].  The field
    [maxMessageSize] holds [maxMessageSize * 0.75]; a setting that is
    undefined reaches the product as NaN.  The connect callback and the
    delivery reports arrive later, as events. *)
Definition constructor (endpoint topic : JsString) (maxMessageSize : spec_float)
           (clock : nat -> Z) : State :=
  {| messages := [];
     producer := [];
     connected := false;
     sendPending := None;
     pendingMessageCount := 0;
     topic := topic;
     maxMessageSize := effectiveLimit maxMessageSize;
     immediateQueue := [];
     nextImmediate := O;
     heap := [];
     clock := clock;
     ticks := O |}.

Definition boxcarMessage (boxcar : IPendingBoxcar) : IBoxcarMessage :=
  {| bm_contents := bc_messages boxcar;
     bm_documentId := bc_documentId boxcar;
     bm_tenantId := bc_tenantId boxcar;
     bm_type := BoxcarType |}.

(** The body of the inner loop of [sendPendingMessages]. *)
Definition produceBoxcar (s : State) (boxcar : IPendingBoxcar) : State :=
  let (now, s1) := Date_now s in
  produce (topic s1) None
          (Buffer_from (JSON_stringify (boxcarMessage boxcar)))
          (bc_documentId boxcar) now (bc_deferred boxcar) s1.

Definition sendPendingMessages (s : State) : State :=
  let s1 :=
    fold_left (fun acc (entry : JsString * list IPendingBoxcar) =>
                 fold_left produceBoxcar (snd entry) acc)
              (messages s) s in
  set_messages [] (set_pendingMessageCount 0 s1).

Definition requestSend (s : State) : State :=
  if negb (connected s) then s
  else if MaxBatchSize <=? pendingMessageCount s then
    sendPendingMessages (set_sendPending None (clearImmediate (sendPending s) s))
  else
    match sendPending s with
    | Some _ => s
    | None =>
        let (i, s1) := setImmediate s in
        set_sendPending (Some i) s1
    end.

(** The callback given to [setImmediate] by [requestSend], run by the
    event loop on the oldest queued handle. *)
Definition runImmediate (s : State) : State :=
  match immediateQueue s with
  | [] => s
  | _ :: q =>
      set_sendPending None (sendPendingMessages (set_immediateQueue q s))
  end.

(** What the [async] method [send] gives back: a promise rejected with a
    string, a promise that follows a [Deferred], or a promise rejected
    with the [TypeError] of a property access on [undefined]. *)
Inductive SendResult :=
| Promise_reject (reason : JsString)
| Promise_of (d : Deferred)
| Throws_TypeError.

(** [boxcars[boxcars.length - 1]] *)
Definition tailBoxcar (boxcars : list IPendingBoxcar) : option IPendingBoxcar :=
  nth_error boxcars (List.length boxcars - 1).

(** [boxcars.length === 0 || boxcars[boxcars.length - 1].size + message.length > this.maxMessageSize] *)
Definition needsNewBoxcar (limit : JsNumber) (boxcars : list IPendingBoxcar)
           (message : JsString) : bool :=
  Nat.eqb (List.length boxcars) 0
  || match tailBoxcar boxcars with
     | Some tail => num_gt (ofZ (bc_size tail + strlen message)) limit
     | None => true
     end.

(** [boxcar.messages.push(message); boxcar.size += message.length] *)
Definition addMessage (message : JsString) (boxcar : IPendingBoxcar)
  : IPendingBoxcar :=
  mkPendingBoxcar (bc_deferred boxcar) (bc_documentId boxcar)
                  (bc_messages boxcar ++ [message])
                  (bc_size boxcar + strlen message)
                  (bc_tenantId boxcar).

(** The array after its last element was replaced; the boxcar is mutated
    in place in the source. *)
Definition updateTail (boxcar : IPendingBoxcar) (boxcars : list IPendingBoxcar)
  : list IPendingBoxcar :=
  removelast boxcars ++ [boxcar].

Definition send (message tenantId documentId : JsString) (s : State)
  : SendResult * State :=
  if num_ge (ofZ (strlen message)) (maxMessageSize s) then
    (Promise_reject (js "Message too large"), s)
  else
    let key := streamKey tenantId documentId in
    let s1 :=
      if negb (Map_has key (messages s))
      then set_messages (Map_set key [] (messages s)) s
      else s in
    let boxcars := match Map_get key (messages s1) with
                   | Some q => q
                   | None => []
                   end in
    let (boxcars1, s2) :=
      if needsNewBoxcar (maxMessageSize s1) boxcars message then
        let (d, s') := new_Deferred s1 in
        (boxcars ++ [mkPendingBoxcar d documentId [] 0 tenantId], s')
      else (boxcars, s1) in
    match tailBoxcar boxcars1 with
    | None => (Throws_TypeError, s2)
    | Some boxcar =>
        let boxcars2 := updateTail (addMessage message boxcar) boxcars1 in
        let s3 := set_messages (Map_set key boxcars2 (messages s2)) s2 in
        let s4 := set_pendingMessageCount (pendingMessageCount s3 + 1) s3 in
        let s5 := requestSend s4 in
        (Promise_of (bc_deferred boxcar), s5)
    end.

(** The callback of [this.producer.connect]. *)
Definition onConnect (error : option KafkaError) (data : Metadata) (s : State)
  : State :=
  requestSend (set_connected true s).

(** The handler of the ["delivery-report"] event. *)
Definition onDeliveryReport (err : option KafkaError) (report : DeliveryReport)
           (s : State) : State :=
  match err with
  | Some e => set_heap (settle (opaque report) (Rejected e) (heap s)) s
  | None => set_heap (settle (opaque report) Fulfilled (heap s)) s
  end.

(** ** Runs of the producer *)

(** What can happen to a producer: a caller submits a message, the connect
    callback fires, the event loop runs the oldest queued immediate, a
    delivery report arrives.  [EvFlush] is [sendPendingMessages] run on its
    own; the source calls it only from [requestSend] and from the immediate
    callback, so allowing it anywhere only adds runs. *)
Inductive Event :=
| EvSend (message tenantId documentId : JsString)
| EvConnect (error : option KafkaError) (data : Metadata)
| EvImmediate
| EvDeliveryReport (err : option KafkaError) (report : DeliveryReport)
| EvFlush.

Definition step (s : State) (ev : Event) : State :=
  match ev with
  | EvSend m t d => snd (send m t d s)
  | EvConnect e data => onConnect e data s
  | EvImmediate => runImmediate s
  | EvDeliveryReport e r => onDeliveryReport e r s
  | EvFlush => sendPendingMessages s
  end.

Definition run (s : State) (evs : list Event) : State := fold_left step evs s.

(** ** Views of a state used in the statements *)

(** Every pending boxcar, in the order the flush visits them. *)
Definition allBoxcars (s : State) : list IPendingBoxcar :=
  List.concat (map snd (messages s)).

(** The queue of a key; a key that is not in the map has no boxcars. *)
Definition queueOf (key : JsString) (s : State) : list IPendingBoxcar :=
  match Map_get key (messages s) with
  | Some q => q
  | None => []
  end.

(** The produce calls a flush makes for the boxcars [bs], the clock having
    been read [t] times before. *)
Fixpoint flushCalls (tp : JsString) (clk : nat -> Z) (t : nat)
         (bs : list IPendingBoxcar) : list ProduceCall :=
  match bs with
  | [] => []
  | b :: rest =>
      mkProduceCall tp None (Buffer_from (JSON_stringify (boxcarMessage b)))
                    (bc_documentId b) (clk t) (bc_deferred b)
      :: flushCalls tp clk (S t) rest
  end.

(** The sum of the lengths of the messages of a boxcar. *)
Definition sumLengths (ms : list JsString) : Z :=
  fold_right (fun m acc => strlen m + acc) 0 ms.

(** The number of messages in a list of boxcars. *)
Definition totalMessages (bs : list IPendingBoxcar) : Z :=
  fold_right (fun b acc => Z.of_nat (List.length (bc_messages b)) + acc) 0 bs.

(** The state of an accepted [send] just before [requestSend] is called:
    the queue of the key is [q'] and the store of promises is [hp]. *)
Definition acceptedState (key : JsString) (q' : list IPendingBoxcar)
           (hp : list PromiseState) (s : State) : State :=
  set_pendingMessageCount (pendingMessageCount s + 1)
    (set_messages (Map_set key q' (messages s)) (set_heap hp s)).

(** A boxcar of the queue of [key] is well formed: it holds a message, its
    size is the sum of the lengths of its messages and does not exceed the
    limit, and the tenant and document it names give [key]. *)
Definition boxcarOK (limit : JsNumber) (key : JsString) (b : IPendingBoxcar) : Prop :=
  bc_messages b <> []
  /\ bc_size b = sumLengths (bc_messages b)
  /\ num_gt (ofZ (bc_size b)) limit = false
  /\ streamKey (bc_tenantId b) (bc_documentId b) = key.

(** The invariant of the producer: the keys of the map are distinct, every
    boxcar is well formed, the counter is the number of pending messages,
    and the immediate queue holds the handle of [sendPending] and nothing
    else. *)
Record Inv (s : State) : Prop := {
  inv_keys : NoDup (map fst (messages s));
  inv_boxcars :
    Forall (fun e => Forall (boxcarOK (maxMessageSize s) (fst e)) (snd e))
           (messages s);
  inv_count : pendingMessageCount s = totalMessages (allBoxcars s);
  inv_sched :
    immediateQueue s = match sendPending s with Some i => [i] | None => [] end
}.

(** The states the producer can be in: those a run of events leads to from
    a freshly constructed producer. *)
Definition reachable (s : State) : Prop :=
  exists endpoint tp maxSize clk evs,
    s = run (constructor endpoint tp maxSize clk) evs.

(** [s'] has the size limit, the topic and the clock of [s]. *)
Definition sameConfig (s s' : State) : Prop :=
  maxMessageSize s' = maxMessageSize s
  /\ topic s' = topic s
  /\ clock s' = clock s.

(** The stream key of a boxcar, from the tenant and document it names. *)
Definition boxcarKey (b : IPendingBoxcar) : JsString :=
  streamKey (bc_tenantId b) (bc_documentId b).

(** The [contents] of the object a produce call serialized. *)
Definition recordContents (c : ProduceCall) : list JsString :=
  bm_contents (payloadMessage (pc_message c)).

(** The stream key of a produced record, from the tenant and document it
    names. *)
Definition recordKey (c : ProduceCall) : JsString :=
  streamKey (bm_tenantId (payloadMessage (pc_message c)))
            (bm_documentId (payloadMessage (pc_message c))).

(** The contents of the records produced so far for a key, concatenated in
    the order of the produce calls. *)
Definition flushedFor (key : JsString) (s : State) : list JsString :=
  List.concat (map recordContents
                   (filter (fun c => str_eqb (recordKey c) key) (producer s))).

(** The messages waiting in the queue of a key, in queue order. *)
Definition pendingFor (key : JsString) (s : State) : list JsString :=
  List.concat (map bc_messages (queueOf key s)).

(** The messages of the [send] calls of a run that were made for a key and
    passed the size check, in the order of the calls. *)
Definition acceptedFor (limit : JsNumber) (key : JsString) (evs : list Event)
  : list JsString :=
  flat_map (fun ev =>
              match ev with
              | EvSend m t d =>
                  if str_eqb (streamKey t d) key
                     && negb (num_ge (ofZ (strlen m)) limit)
                  then [m] else []
              | _ => []
              end) evs.

(** The two ways [send] accepts a message: a new boxcar at the end of the
    queue, or one more message in the tail boxcar. *)
Inductive Accepts (m t d : JsString) (s : State)
  : list IPendingBoxcar -> list PromiseState -> Deferred -> Prop :=
| Accepts_new :
    needsNewBoxcar (maxMessageSize s) (queueOf (streamKey t d) s) m = true ->
    Accepts m t d s
            (queueOf (streamKey t d) s
             ++ [mkPendingBoxcar (List.length (heap s)) d [m] (strlen m) t])
            (heap s ++ [Pending]) (List.length (heap s))
| Accepts_join q0 tail :
    queueOf (streamKey t d) s = q0 ++ [tail] ->
    num_gt (ofZ (bc_size tail + strlen m)) (maxMessageSize s) = false ->
    Accepts m t d s (q0 ++ [addMessage m tail]) (heap s) (bc_deferred tail).

(** What a key has produced and pending, taken together. *)
Definition delivered (key : JsString) (s : State) : list JsString :=
  flushedFor key s ++ pendingFor key s.

(** The handles of the pending boxcars and of the produced records. *)
Definition usedHandles (s : State) : list Deferred :=
  map bc_deferred (allBoxcars s) ++ map pc_opaque (producer s).

(** What the [send] calls of a run returned, with the message of each
    call, in the order of the calls. *)
Fixpoint sendLog (s : State) (evs : list Event) : list (JsString * SendResult) :=
  match evs with
  | [] => []
  | ev :: rest =>
      match ev with
      | EvSend m t d => [(m, fst (send m t d s))]
      | _ => []
      end ++ sendLog (step s ev) rest
  end.

(** The messages whose [send] returned the promise of the handle [h]. *)
Definition holders (log : list (JsString * SendResult)) (h : Deferred)
  : list JsString :=
  flat_map (fun e =>
              match snd e with
              | Promise_of h' => if Nat.eqb h' h then [fst e] else []
              | _ => []
              end) log.

(** A logged result names a handle that was allocated. *)
Definition logAllocated (hp : list PromiseState) (e : JsString * SendResult) : Prop :=
  match snd e with
  | Promise_of h => (h < List.length hp)%nat
  | _ => True
  end.

(** How the handles in a state relate to the results [send] gave: the
    handles of boxcars and records are distinct and allocated, and the
    messages of each boxcar and record are those whose [send] returned its
    handle. *)
Record Linked (s : State) (log : list (JsString * SendResult)) : Prop := {
  l_nodup : NoDup (usedHandles s);
  l_alloc : Forall (fun h => (h < List.length (heap s))%nat) (usedHandles s);
  l_log : Forall (logAllocated (heap s)) log;
  l_pending :
    Forall (fun b => bc_messages b = holders log (bc_deferred b)) (allBoxcars s);
  l_produced :
    Forall (fun c => recordContents c = holders log (pc_opaque c)) (producer s)
}.

(** Everything of a state but the scheduling of the deferred flush. *)
Definition sameBatch (s s' : State) : Prop :=
  messages s' = messages s
  /\ producer s' = producer s
  /\ pendingMessageCount s' = pendingMessageCount s
  /\ heap s' = heap s
  /\ maxMessageSize s' = maxMessageSize s
  /\ connected s' = connected s
  /\ topic s' = topic s
  /\ clock s' = clock s
  /\ ticks s' = ticks s.

(** The state after [this.sendPending = setImmediate(...)]. *)
Definition scheduled (s : State) : State :=
  set_sendPending (Some (nextImmediate s))
    (set_nextImmediate (S (nextImmediate s))
       (set_immediateQueue (immediateQueue s ++ [nextImmediate s]) s)).

(** [send] calls made one after the other, each with its message, tenant
    and document. *)
Definition sendAll (sends : list (JsString * JsString * JsString)) : list Event :=
  map (fun x => EvSend (fst (fst x)) (snd (fst x)) (snd x)) sends.

(** The counter is the number of pending messages, and every pending
    boxcar holds a message and has the sum of their lengths as its size. *)
Definition counted (s : State) : Prop :=
  pendingMessageCount s = totalMessages (allBoxcars s)
  /\ Forall (fun b => bc_messages b <> []
                      /\ bc_size b = sumLengths (bc_messages b))
            (allBoxcars s).

(** ** Examples *)

(** The readings of the wall clock in the examples. *)
Definition exampleClock : nat -> Z := fun n => 1000 + Z.of_nat n.

(** The double of an integer. *)
Definition double (z : Z) : spec_float := binary_normalize prec emax z 0 false.

(** A producer configured with a maximum message size of 200, hence an
    effective limit of 150. *)
Definition exampleProducer : State :=
  constructor (js "kafka:9092") (js "rawdeltas") (double 200) exampleClock.

(** A message of [n] code units [c]. *)
Definition text (n : nat) (c : N) : JsString := repeat c n.

(** A producer whose effective limit is 100: the double nearest to 400/3
    times [0.75] is 100. *)
Definition exampleProducer100 : State :=
  constructor (js "kafka:9092") (js "rawdeltas")
              (SFdiv prec emax (double 400) (double 3)) exampleClock.

(** A producer whose configured maximum message size is undefined or not a
    number: the product with [0.75] is NaN. *)
Definition exampleProducerNaN : State :=
  constructor (js "kafka:9092") (js "rawdeltas") S754_nan exampleClock.

(** The doubles [2.6666666666666665] and [2.666666666666667], next to each
    other around 8/3. *)
Definition belowEightThirds : spec_float := S754_finite false 6004799503160661 (-51).
Definition aboveEightThirds : spec_float := S754_finite false 6004799503160662 (-51).

(** ** Further views of runs *)

(** No connect callback and no flush on its own among the events. *)
Definition beforeConnect (evs : list Event) : bool :=
  forallb (fun ev =>
             match ev with
             | EvConnect _ _ => false
             | EvFlush => false
             | _ => true
             end) evs.

(** The number of [send] calls among the events. *)
Definition sendCount (evs : list Event) : nat :=
  List.length (filter (fun ev => match ev with EvSend _ _ _ => true | _ => false end) evs).

(** Every delivery report of the run names a handle that was given to
    [produce] before the report arrives. *)
Fixpoint reportsProduced (s : State) (evs : list Event) : Prop :=
  match evs with
  | [] => True
  | ev :: rest =>
      match ev with
      | EvDeliveryReport _ r => In (opaque r) (map pc_opaque (producer s))
      | _ => True
      end
      /\ reportsProduced (step s ev) rest
  end.

(** What a record handed to the Kafka client looks like for a producer
    with topic [tp] and size limit [limit]; no size is at most a limit
    that is NaN. *)
Definition recordOK (tp : JsString) (limit : JsNumber) (c : ProduceCall) : Prop :=
  pc_topic c = tp
  /\ pc_partition c = None
  /\ bm_type (payloadMessage (pc_message c)) = js "boxcar"
  /\ pc_key c = bm_documentId (payloadMessage (pc_message c))
  /\ recordContents c <> []
  /\ (limit <> NaN -> js_le (ofZ (sumLengths (recordContents c))) limit = true).

(** What a step adds to the log of produce calls: nothing, or the calls of
    one flush of well-formed boxcars. *)
Definition flushesOrNot (s s' : State) : Prop :=
  (producer s' = producer s /\ ticks s' = ticks s)
  \/ exists bs,
      Forall (fun b => exists key, boxcarOK (maxMessageSize s) key b) bs
      /\ producer s' = producer s ++ flushCalls (topic s) (clock s) (ticks s) bs
      /\ ticks s' = (ticks s + List.length bs)%nat.

(** Nothing was produced, nothing is scheduled and the producer is not
    connected. *)
Definition idle (s : State) : Prop :=
  connected s = false
  /\ producer s = []
  /\ immediateQueue s = []
  /\ sendPending s = None.

(** A connected producer whose counter is at the ceiling, with one boxcar
    pending and a deferred flush scheduled. *)
Definition exampleAtCeiling : State :=
  {| messages := [(js "T/D",
                  [mkPendingBoxcar 0%nat (js "D") [text 10 97] 10 (js "T")])];
     producer := [];
     connected := true;
     sendPending := Some 0%nat;
     pendingMessageCount := MaxBatchSize;
     topic := js "rawdeltas";
     maxMessageSize := Num 150;
     immediateQueue := [0%nat];
     nextImmediate := 1%nat;
     heap := [Pending];
     clock := fun n => 1000 + Z.of_nat n;
     ticks := O |}.

(** Every handle that is settled belongs to a record that was produced. *)
Definition settledProduced (s : State) : Prop :=
  forall h, promiseState (heap s) h <> Pending ->
            In h (map pc_opaque (producer s)).

(** ** The script that exports the secrets of the key vault

    The second part of the source file: for every secret of the vault it
    takes the name after the last slash of the secret's id, turns it into
    the name of an environment variable and runs a shell command that sets
    the variable.  The calls to the vault and to [exec] are the
    environment of the script; what is embedded here is what the script
    computes for them. *)

Definition dash : N := 45%N.
Definition underscore : N := 95%N.
Definition dquote : N := 34%N.

(** [s.split(sep)] for a separator of one code unit. *)
Fixpoint String_split (sep : N) (s : JsString) : list JsString :=
  match s with
  | [] => [[]]
  | c :: rest =>
      if N.eqb c sep then [] :: String_split sep rest
      else match String_split sep rest with
           | piece :: pieces => (c :: piece) :: pieces
           | [] => [[c]]
           end
  end.

(** [a.join(sep)] *)
Fixpoint Array_join (sep : JsString) (a : list JsString) : JsString :=
  match a with
  | [] => []
  | x :: rest =>
      match rest with
      | [] => x
      | _ :: _ => x ++ sep ++ Array_join sep rest
      end
  end.

(** [a.pop()]; [None] stands for [undefined]. *)
Definition Array_pop (a : list JsString) : option JsString :=
  match a with
  | [] => None
  | _ :: _ => Some (last a [])
  end.

(** [secret.id.split('/').pop()] *)
Definition secretNameOf (id : JsString) : option JsString :=
  Array_pop (String_split slash id).

(** [secretName.split('-').join('__')] *)
Definition envNameOf (secretName : JsString) : JsString :=
  Array_join (js "__") (String_split dash secretName).

(** A call [exec(command, callback)] or [exec(command, {shell}, callback)];
    the callback is [stdResponse] in every call. *)
Record ExecCall := mkExec {
  ex_command : JsString;
  ex_shell : option JsString
}.

(** A string is truthy when it is not empty. *)
Definition truthy (s : JsString) : bool :=
  match s with [] => false | _ :: _ => true end.

(** [process.env.SHELL ? process.env.SHELL.split('/').pop() : null], the
    variable being unset when [SHELL] is [None]. *)
Definition shellOf (SHELL : option JsString) : option JsString :=
  match SHELL with
  | Some sh => if truthy sh then Array_pop (String_split slash sh) else None
  | None => None
  end.

(** [`export ${name}="${value}"`] *)
Definition setString (name value : JsString) : JsString :=
  js "export " ++ name ++ js "=" ++ [dquote] ++ value ++ [dquote].

(** The command for Windows, the [default] of the [switch]. *)
Definition setxCall (name value : JsString) : ExecCall :=
  mkExec (js "setx " ++ name ++ js " '" ++ value ++ js "'") None.

(** [setEnv(name, value)], given the environment variable [SHELL]. *)
Definition setEnv (SHELL : option JsString) (name value : JsString) : ExecCall :=
  match shellOf SHELL with
  | Some shell =>
      if str_eqb shell (js "bash") then
        mkExec (setString name value ++ js " && echo '" ++ setString name value
                ++ js "' >> ~/.bashrc") None
      else if str_eqb shell (js "zsh") then
        mkExec (setString name value ++ js " && echo '" ++ setString name value
                ++ js "' >> ~/.zshrc") None
      else if str_eqb shell (js "fish") then
        mkExec (js "set -xU '" ++ name ++ js "' '" ++ value ++ js "'") SHELL
      else setxCall name value
  | None => setxCall name value
  end.

(** What replacing every dash by two underscores gives. *)
Definition dashesToUnderscores (s : JsString) : JsString :=
  flat_map (fun c => if N.eqb c dash then [underscore; underscore] else [c]) s.

(** * Lemmas *)

(** ** Strings and maps *)

Lemma str_eqb_eq (a b : JsString) : str_eqb a b = true <-> a = b.
Proof.
  revert b; induction a as [|x a IH]; intros [|y b]; simpl;
    try (split; [discriminate | discriminate]); try tauto.
  rewrite andb_true_iff, N.eqb_eq, IH. split.
  - intros [-> ->]; reflexivity.
  - intros H; inversion H; auto.
Qed.

Lemma str_eqb_refl (a : JsString) : str_eqb a a = true.
Proof. apply str_eqb_eq; reflexivity. Qed.

Lemma str_eqb_neq (a b : JsString) : str_eqb a b = false <-> a <> b.
Proof.
  rewrite <- str_eqb_eq. destruct (str_eqb a b); split; congruence.
Qed.

Section MapLemmas.
Context {V : Type}.
Implicit Types (m : JsMap V) (k : JsString) (v : V).

Lemma Map_has_get k m : Map_has k m = false <-> Map_get k m = None.
Proof.
  induction m as [|[k' v'] m IH]; simpl; [tauto|].
  destruct (str_eqb k k'); simpl; [split; discriminate | exact IH].
Qed.

Lemma Map_get_In k m q : Map_get k m = Some q -> In (k, q) m.
Proof.
  induction m as [|[k' v'] m IH]; simpl; [discriminate|].
  destruct (str_eqb k k') eqn:E.
  - apply str_eqb_eq in E; subst. intros [= ->]; auto.
  - auto.
Qed.

Lemma Map_get_None_notin k m : Map_get k m = None -> ~ In k (map fst m).
Proof.
  induction m as [|[k' v'] m IH]; simpl; [tauto|].
  destruct (str_eqb k k') eqn:E; [discriminate|].
  apply str_eqb_neq in E. intros H [H1|H1]; [congruence | exact (IH H H1)].
Qed.

Lemma Map_get_set_same k v m : Map_get k (Map_set k v m) = Some v.
Proof.
  induction m as [|[k' v'] m IH]; simpl.
  - now rewrite str_eqb_refl.
  - destruct (str_eqb k k') eqn:E; simpl; rewrite E; auto.
Qed.

Lemma Map_get_set_other k k' v m :
  k' <> k -> Map_get k' (Map_set k v m) = Map_get k' m.
Proof.
  intros Hne. induction m as [|[k0 v0] m IH]; simpl.
  - apply str_eqb_neq in Hne. now rewrite Hne.
  - destruct (str_eqb k k0) eqn:E; simpl.
    + apply str_eqb_eq in E; subst k0.
      apply str_eqb_neq in Hne. now rewrite Hne.
    + rewrite IH. reflexivity.
Qed.

Lemma Map_set_set k v v' m : Map_set k v' (Map_set k v m) = Map_set k v' m.
Proof.
  induction m as [|[k0 v0] m IH]; simpl.
  - now rewrite str_eqb_refl.
  - destruct (str_eqb k k0) eqn:E; simpl; rewrite E; [reflexivity|].
    now rewrite IH.
Qed.

Lemma Map_set_keys_present k v m :
  Map_get k m <> None -> map fst (Map_set k v m) = map fst m.
Proof.
  induction m as [|[k0 v0] m IH]; simpl; [congruence|].
  destruct (str_eqb k k0) eqn:E; simpl; [reflexivity|].
  intros H. now rewrite IH.
Qed.

Lemma Map_set_absent k v m : Map_get k m = None -> Map_set k v m = m ++ [(k, v)].
Proof.
  induction m as [|[k0 v0] m IH]; simpl; [reflexivity|].
  destruct (str_eqb k k0) eqn:E; [discriminate|].
  intros H. now rewrite IH.
Qed.

End MapLemmas.

(** ** The flush *)

Lemma flushCalls_app tp clk t a b :
  flushCalls tp clk t (a ++ b)
  = flushCalls tp clk t a ++ flushCalls tp clk (t + List.length a) b.
Proof.
  revert t; induction a as [|x a IH]; intros t; simpl.
  - now rewrite Nat.add_0_r.
  - rewrite IH. simpl. now rewrite Nat.add_succ_r.
Qed.

Lemma fold_produceBoxcar bs s :
  fold_left produceBoxcar bs s
  = set_ticks (ticks s + List.length bs)
      (set_producer (producer s ++ flushCalls (topic s) (clock s) (ticks s) bs) s).
Proof.
  revert s; induction bs as [|b bs IH]; intros s; simpl.
  - destruct s; unfold set_ticks, set_producer; simpl.
    now rewrite app_nil_r, Nat.add_0_r.
  - rewrite IH. destruct s; unfold produceBoxcar, set_ticks, set_producer; simpl.
    now rewrite <- app_assoc, Nat.add_succ_r.
Qed.

Lemma fold_queues (ms : JsMap (list IPendingBoxcar)) s :
  fold_left (fun acc (entry : JsString * list IPendingBoxcar) =>
               fold_left produceBoxcar (snd entry) acc) ms s
  = set_ticks (ticks s + List.length (List.concat (map snd ms)))
      (set_producer
         (producer s ++ flushCalls (topic s) (clock s) (ticks s) (List.concat (map snd ms)))
         s).
Proof.
  revert s; induction ms as [|[k q] ms IH]; intros s; simpl.
  - destruct s; unfold set_ticks, set_producer; simpl.
    now rewrite app_nil_r, Nat.add_0_r.
  - rewrite IH, fold_produceBoxcar, flushCalls_app, length_app.
    destruct s; unfold set_ticks, set_producer; simpl.
    now rewrite <- app_assoc, Nat.add_assoc.
Qed.

Lemma sendPendingMessages_eq s :
  sendPendingMessages s
  = mkState [] (producer s ++ flushCalls (topic s) (clock s) (ticks s) (allBoxcars s))
            (connected s) (sendPending s) 0 (topic s) (maxMessageSize s)
            (immediateQueue s) (nextImmediate s) (heap s) (clock s)
            (ticks s + List.length (allBoxcars s)).
Proof.
  unfold sendPendingMessages. rewrite fold_queues. reflexivity.
Qed.

(** ** Numbers *)

(** On rationals the tests are the comparisons of [Q]. *)
Lemma num_ge_Num_true a b : num_ge (Num a) (Num b) = true <-> (b <= a)%Q.
Proof. unfold num_ge. cbn. apply Qle_bool_iff. Qed.

Lemma num_ge_Num_false a b : num_ge (Num a) (Num b) = false <-> (a < b)%Q.
Proof.
  unfold num_ge. cbn. split.
  - intros H. apply Qnot_le_lt. intros Hle. apply Qle_bool_iff in Hle. congruence.
  - intros H. destruct (Qle_bool b a) eqn:E; [|reflexivity].
    apply Qle_bool_iff in E. exfalso. exact (Qlt_not_le _ _ H E).
Qed.

Lemma num_gt_Num_false a b : num_gt (Num a) (Num b) = false <-> (a <= b)%Q.
Proof.
  unfold num_gt. cbn. rewrite negb_false_iff. apply Qle_bool_iff.
Qed.

Lemma num_gt_Num_true a b : num_gt (Num a) (Num b) = true <-> (b < a)%Q.
Proof.
  unfold num_gt. cbn. rewrite negb_true_iff. split.
  - intros H. apply Qnot_le_lt. intros Hle. apply Qle_bool_iff in Hle. congruence.
  - intros H. destruct (Qle_bool a b) eqn:E; [|reflexivity].
    apply Qle_bool_iff in E. exfalso. exact (Qlt_not_le _ _ H E).
Qed.

Lemma js_le_Num a b : js_le (Num a) (Num b) = true <-> (a <= b)%Q.
Proof. cbn. apply Qle_bool_iff. Qed.

(** No comparison with NaN holds. *)
Lemma num_ge_NaN x : num_ge x NaN = false.
Proof. destruct x; reflexivity. Qed.

Lemma num_gt_NaN x : num_gt x NaN = false.
Proof. destruct x; reflexivity. Qed.

Lemma js_le_NaN x : js_le x NaN = false.
Proof. destruct x; reflexivity. Qed.

(** The two tests of [send] exclude each other on one number: what is not
    [>=] the limit is not [>] it either. *)
Lemma num_ge_false_gt x y : num_ge x y = false -> num_gt x y = false.
Proof.
  unfold num_ge, num_gt.
  destruct x as [| | |a], y as [| | |b]; cbn; try reflexivity; try discriminate.
  intros H. apply negb_false_iff. apply Qle_bool_iff.
  apply Qlt_le_weak. apply Qnot_le_lt. intros Hle.
  apply Qle_bool_iff in Hle. congruence.
Qed.

(** What is [>] the limit is [>=] it. *)
Lemma num_gt_true_ge x y : num_gt x y = true -> num_ge x y = true.
Proof.
  intros H. destruct (num_ge x y) eqn:E; [reflexivity|].
  apply num_ge_false_gt in E. congruence.
Qed.

(** Unless the limit is NaN, an integer that is not [>] the limit is [<=]
    it. *)
Lemma num_gt_false_le z y :
  y <> NaN -> num_gt (ofZ z) y = false -> js_le (ofZ z) y = true.
Proof.
  unfold num_gt, ofZ.
  destruct y as [| | |b]; cbn; try congruence.
  intros _ H. now apply negb_false_iff in H.
Qed.

(** With NaN for a limit, an integer is not [<=] the limit although it is
    not [>] it. *)
Lemma js_le_false_NaN z : js_le (ofZ z) NaN = false /\ num_gt (ofZ z) NaN = false.
Proof. split; reflexivity. Qed.

(** The limit is the rounded product: 150 for a configured 200, and 2 for
    each of the two doubles around 8/3, whose exact products with 3/4 lie
    below and above 2; NaN and the infinities are carried over. *)
Lemma effectiveLimit_examples :
  effectiveLimit (double 200) = Num 150
  /\ effectiveLimit belowEightThirds = Num 2
  /\ effectiveLimit aboveEightThirds = Num 2
  /\ effectiveLimit S754_nan = NaN
  /\ effectiveLimit (S754_infinity false) = PosInfinity
  /\ effectiveLimit (S754_infinity true) = NegInfinity.
Proof. repeat split; vm_compute; reflexivity. Qed.

(** ** Arrays of boxcars *)

Lemma tailBoxcar_snoc q b : tailBoxcar (q ++ [b]) = Some b.
Proof.
  unfold tailBoxcar. rewrite length_app. simpl.
  replace (List.length q + 1 - 1)%nat with (List.length q) by lia.
  rewrite nth_error_app2 by lia. now rewrite Nat.sub_diag.
Qed.

Lemma updateTail_snoc q b b' : updateTail b' (q ++ [b]) = q ++ [b'].
Proof. unfold updateTail. now rewrite removelast_last. Qed.

Lemma snoc_cases {A} (l : list A) : l = [] \/ exists q x, l = q ++ [x].
Proof.
  destruct l as [|a l]; [now left|right].
  destruct (exists_last (l := a :: l)) as (q & x & ->); [discriminate|eauto].
Qed.

Lemma needsNewBoxcar_nil limit m : needsNewBoxcar limit [] m = true.
Proof. reflexivity. Qed.

Lemma needsNewBoxcar_snoc limit q b m :
  needsNewBoxcar limit (q ++ [b]) m
  = num_gt (ofZ (bc_size b + strlen m)) limit.
Proof.
  unfold needsNewBoxcar. rewrite tailBoxcar_snoc, length_app. simpl.
  replace (List.length q + 1)%nat with (S (List.length q)) by lia. reflexivity.
Qed.

(** ** What [send] does to the state *)

Lemma set_heap_same s : set_heap (heap s) s = s.
Proof. now destruct s. Qed.

Lemma queueOf_absent key s :
  Map_has key (messages s) = false -> queueOf key s = [].
Proof.
  intros H. apply Map_has_get in H. unfold queueOf. now rewrite H.
Qed.

Lemma send_oversized m t d s :
  num_ge (ofZ (strlen m)) (maxMessageSize s) = true ->
  send m t d s = (Promise_reject (js "Message too large"), s).
Proof. intros H. unfold send. now rewrite H. Qed.

Lemma send_new m t d s :
  num_ge (ofZ (strlen m)) (maxMessageSize s) = false ->
  needsNewBoxcar (maxMessageSize s) (queueOf (streamKey t d) s) m = true ->
  send m t d s
  = (Promise_of (List.length (heap s)),
     requestSend
       (acceptedState (streamKey t d)
          (queueOf (streamKey t d) s
           ++ [mkPendingBoxcar (List.length (heap s)) d [m] (strlen m) t])
          (heap s ++ [Pending]) s)).
Proof.
  intros Hsz Hnew. unfold send. rewrite Hsz.
  destruct (Map_has (streamKey t d) (messages s)) eqn:Hhas; simpl negb; cbv iota.
  - fold (queueOf (streamKey t d) s). rewrite Hnew.
    unfold new_Deferred. rewrite tailBoxcar_snoc, updateTail_snoc.
    reflexivity.
  - rewrite (queueOf_absent _ _ Hhas) in *.
    cbn [messages set_messages maxMessageSize].
    rewrite Map_get_set_same, needsNewBoxcar_nil.
    unfold new_Deferred. cbn [app]. unfold tailBoxcar, updateTail. cbn.
    rewrite Map_set_set. reflexivity.
Qed.

Lemma send_join m t d s :
  num_ge (ofZ (strlen m)) (maxMessageSize s) = false ->
  needsNewBoxcar (maxMessageSize s) (queueOf (streamKey t d) s) m = false ->
  exists q0 tail,
    queueOf (streamKey t d) s = q0 ++ [tail]
    /\ num_gt (ofZ (bc_size tail + strlen m)) (maxMessageSize s) = false
    /\ send m t d s
       = (Promise_of (bc_deferred tail),
          requestSend
            (acceptedState (streamKey t d) (q0 ++ [addMessage m tail]) (heap s) s)).
Proof.
  intros Hsz Hnew.
  destruct (snoc_cases (queueOf (streamKey t d) s)) as [E | (q0 & tail & E)].
  { rewrite E, needsNewBoxcar_nil in Hnew. discriminate. }
  exists q0, tail. rewrite E, needsNewBoxcar_snoc in Hnew.
  split; [exact E|]. split; [exact Hnew|].
  unfold send. rewrite Hsz.
  destruct (Map_has (streamKey t d) (messages s)) eqn:Hhas; simpl negb; cbv iota.
  - fold (queueOf (streamKey t d) s). rewrite E, needsNewBoxcar_snoc, Hnew.
    rewrite tailBoxcar_snoc, updateTail_snoc.
    unfold acceptedState. rewrite set_heap_same. reflexivity.
  - rewrite (queueOf_absent _ _ Hhas) in E. destruct q0; discriminate.
Qed.

(** ** The invariant of the producer *)

Lemma totalMessages_app a b :
  totalMessages (a ++ b) = totalMessages a + totalMessages b.
Proof. induction a; simpl; lia. Qed.

Lemma sumLengths_app a b : sumLengths (a ++ b) = sumLengths a + sumLengths b.
Proof. induction a; simpl; lia. Qed.

Lemma NoDup_Map_set {V} k (v : V) m :
  NoDup (map fst m) -> NoDup (map fst (Map_set k v m)).
Proof.
  intros H. destruct (Map_get k m) eqn:E.
  - rewrite Map_set_keys_present; [exact H | congruence].
  - rewrite (Map_set_absent _ _ _ E), map_app. simpl.
    apply NoDup_app; [exact H | repeat constructor; simpl; tauto |].
    intros x Hx [<- | []]. exact (Map_get_None_notin _ _ E Hx).
Qed.

Lemma Forall_Map_set {V} (P : JsString * V -> Prop) k v m :
  Forall P m -> P (k, v) -> Forall P (Map_set k v m).
Proof.
  intros H Hk. induction H as [|[k0 v0] m H0 H IH]; simpl.
  - constructor; auto.
  - destruct (str_eqb k k0) eqn:E.
    + apply str_eqb_eq in E; subst. constructor; auto.
    + constructor; auto.
Qed.

Lemma totalMessages_Map_set k v (m : JsMap (list IPendingBoxcar)) :
  totalMessages (List.concat (map snd (Map_set k v m)))
  = totalMessages (List.concat (map snd m))
    - totalMessages (match Map_get k m with Some q => q | None => [] end)
    + totalMessages v.
Proof.
  induction m as [|[k0 v0] m IH]; simpl.
  - rewrite app_nil_r. lia.
  - destruct (str_eqb k k0); simpl; rewrite !totalMessages_app; lia.
Qed.

Lemma Inv_constructor endpoint tp maxSize clk :
  Inv (constructor endpoint tp maxSize clk).
Proof. split; simpl; auto using NoDup_nil. Qed.

Lemma Inv_accepted key q' hp s :
  Inv s ->
  Forall (boxcarOK (maxMessageSize s) key) q' ->
  totalMessages q' = totalMessages (queueOf key s) + 1 ->
  Inv (acceptedState key q' hp s).
Proof.
  intros [Hk Hb Hc Hs] Hq Ht. split; cbn.
  - now apply NoDup_Map_set.
  - now apply Forall_Map_set.
  - unfold allBoxcars. cbn. rewrite totalMessages_Map_set.
    unfold queueOf in Ht. unfold allBoxcars in Hc. lia.
  - exact Hs.
Qed.

Lemma Inv_sendPendingMessages s : Inv s -> Inv (sendPendingMessages s).
Proof.
  intros [Hk Hb Hc Hs]. rewrite sendPendingMessages_eq.
  split; cbn; auto using NoDup_nil.
Qed.

Lemma Inv_requestSend s : Inv s -> Inv (requestSend s).
Proof.
  intros H. unfold requestSend.
  destruct (connected s); simpl negb; cbv iota; [|exact H].
  destruct (MaxBatchSize <=? pendingMessageCount s).
  - apply Inv_sendPendingMessages.
    destruct H as [Hk Hb Hc Hs].
    destruct (sendPending s) as [i|]; split; cbn in *; auto.
    rewrite Hs. simpl. now rewrite Nat.eqb_refl.
  - destruct (sendPending s) as [i|] eqn:E; [exact H|].
    destruct H as [Hk Hb Hc Hs]. split; auto.
    cbn. rewrite Hs, E. reflexivity.
Qed.

Lemma Inv_runImmediate s : Inv s -> Inv (runImmediate s).
Proof.
  intros H. unfold runImmediate.
  destruct (immediateQueue s) as [|i q] eqn:E; [exact H|].
  rewrite sendPendingMessages_eq. destruct H as [Hk Hb Hc Hs].
  split; cbn; auto using NoDup_nil.
  rewrite E in Hs. destruct (sendPending s); congruence.
Qed.

Lemma Inv_onConnect e data s : Inv s -> Inv (onConnect e data s).
Proof.
  intros [Hk Hb Hc Hs]. apply Inv_requestSend. split; auto.
Qed.

Lemma Inv_onDeliveryReport e r s : Inv s -> Inv (onDeliveryReport e r s).
Proof.
  intros [Hk Hb Hc Hs]. destruct e; split; auto.
Qed.

Lemma boxcarOK_new limit m t d h :
  num_ge (ofZ (strlen m)) limit = false ->
  boxcarOK limit (streamKey t d) (mkPendingBoxcar h d [m] (strlen m) t).
Proof.
  intros H. repeat split; cbn.
  - discriminate.
  - lia.
  - now apply num_ge_false_gt.
Qed.

Lemma boxcarOK_addMessage limit key m b :
  boxcarOK limit key b ->
  num_gt (ofZ (bc_size b + strlen m)) limit = false ->
  boxcarOK limit key (addMessage m b).
Proof.
  intros (Hne & Hsz & Hle & Hkey) H. repeat split; cbn; auto.
  - destruct (bc_messages b); discriminate.
  - rewrite sumLengths_app, Hsz. simpl. lia.
Qed.

Lemma queueOf_boxcarOK key s :
  Inv s -> Forall (boxcarOK (maxMessageSize s) key) (queueOf key s).
Proof.
  intros H. unfold queueOf. destruct (Map_get key (messages s)) eqn:E; [|constructor].
  apply Map_get_In in E. destruct H as [_ Hb _ _].
  rewrite Forall_forall in Hb. exact (Hb _ E).
Qed.

Lemma Inv_send m t d s : Inv s -> Inv (snd (send m t d s)).
Proof.
  intros H.
  destruct (num_ge (ofZ (strlen m)) (maxMessageSize s)) eqn:Hsz.
  { now rewrite send_oversized. }
  pose proof (queueOf_boxcarOK (streamKey t d) s H) as Hq.
  destruct (needsNewBoxcar (maxMessageSize s) (queueOf (streamKey t d) s) m) eqn:Hnew.
  - rewrite send_new by assumption. cbn [snd].
    apply Inv_requestSend, Inv_accepted; auto.
    + apply Forall_app; split; [exact Hq|].
      constructor; [|constructor].
      apply boxcarOK_new. exact Hsz.
    + rewrite totalMessages_app. simpl. lia.
  - destruct (send_join m t d s Hsz Hnew) as (q0 & tail & E & Hfit & ->). cbn [snd].
    rewrite E in Hq. apply Forall_app in Hq as [Hq0 Htail].
    inversion Htail as [|? ? Ht _]; subst.
    apply Inv_requestSend, Inv_accepted; auto.
    + apply Forall_app; split; [exact Hq0|].
      constructor; [|constructor].
      apply boxcarOK_addMessage; [exact Ht|]. exact Hfit.
    + rewrite E, !totalMessages_app. simpl. rewrite length_app. simpl. lia.
Qed.

Lemma Inv_step s ev : Inv s -> Inv (step s ev).
Proof.
  destruct ev; simpl;
    auto using Inv_send, Inv_onConnect, Inv_runImmediate,
               Inv_onDeliveryReport, Inv_sendPendingMessages.
Qed.

Lemma Inv_run evs s : Inv s -> Inv (run s evs).
Proof.
  revert s; induction evs as [|ev evs IH]; intros s H; simpl; auto.
  apply IH, Inv_step, H.
Qed.

Lemma reachable_Inv s : reachable s -> Inv s.
Proof.
  intros (endpoint & tp & maxSize & clk & evs & ->).
  apply Inv_run, Inv_constructor.
Qed.

(** ** Fields that never change after construction *)

Lemma sameConfig_refl s : sameConfig s s.
Proof. repeat split. Qed.

Lemma sameConfig_trans s1 s2 s3 :
  sameConfig s1 s2 -> sameConfig s2 s3 -> sameConfig s1 s3.
Proof. unfold sameConfig. intuition congruence. Qed.

Lemma sameConfig_sendPendingMessages s : sameConfig s (sendPendingMessages s).
Proof. rewrite sendPendingMessages_eq. repeat split. Qed.

Lemma sameConfig_requestSend s : sameConfig s (requestSend s).
Proof.
  unfold requestSend.
  destruct (connected s); simpl negb; cbv iota; [|apply sameConfig_refl].
  destruct (MaxBatchSize <=? pendingMessageCount s).
  - eapply sameConfig_trans; [|apply sameConfig_sendPendingMessages].
    destruct (sendPending s); repeat split.
  - destruct (sendPending s); repeat split.
Qed.

Lemma sameConfig_send m t d s : sameConfig s (snd (send m t d s)).
Proof.
  destruct (num_ge (ofZ (strlen m)) (maxMessageSize s)) eqn:Hsz.
  { rewrite send_oversized by assumption. apply sameConfig_refl. }
  destruct (needsNewBoxcar (maxMessageSize s) (queueOf (streamKey t d) s) m) eqn:Hnew.
  - rewrite send_new by assumption. cbn [snd].
    eapply sameConfig_trans; [|apply sameConfig_requestSend]. repeat split.
  - destruct (send_join m t d s Hsz Hnew) as (q0 & tail & _ & _ & ->). cbn [snd].
    eapply sameConfig_trans; [|apply sameConfig_requestSend]. repeat split.
Qed.

Lemma sameConfig_step s ev : sameConfig s (step s ev).
Proof.
  destruct ev; simpl.
  - apply sameConfig_send.
  - unfold onConnect. eapply sameConfig_trans; [|apply sameConfig_requestSend].
    repeat split.
  - unfold runImmediate. destruct (immediateQueue s); [apply sameConfig_refl|].
    rewrite sendPendingMessages_eq. repeat split.
  - destruct err; repeat split.
  - apply sameConfig_sendPendingMessages.
Qed.

Lemma sameConfig_run evs s : sameConfig s (run s evs).
Proof.
  revert s; induction evs as [|ev evs IH]; intros s; simpl.
  - apply sameConfig_refl.
  - eapply sameConfig_trans; [apply sameConfig_step | apply IH].
Qed.

(** ** Messages of a key: flushed, pending, accepted *)

Lemma send_accepts m t d s :
  num_ge (ofZ (strlen m)) (maxMessageSize s) = false ->
  exists q' hp h,
    Accepts m t d s q' hp h
    /\ send m t d s = (Promise_of h, requestSend (acceptedState (streamKey t d) q' hp s)).
Proof.
  intros Hsz.
  destruct (needsNewBoxcar (maxMessageSize s) (queueOf (streamKey t d) s) m) eqn:Hnew.
  - do 3 eexists. split; [apply Accepts_new; exact Hnew | now apply send_new].
  - destruct (send_join m t d s Hsz Hnew) as (q0 & tail & E & Hfit & Hs).
    do 3 eexists. split; [eapply Accepts_join; eassumption | exact Hs].
Qed.

(** [send] always returns: the property access on the tail boxcar never
    meets [undefined]. *)
Lemma send_never_throws m t d s : fst (send m t d s) <> Throws_TypeError.
Proof.
  destruct (num_ge (ofZ (strlen m)) (maxMessageSize s)) eqn:Hsz.
  - rewrite send_oversized by assumption. discriminate.
  - destruct (send_accepts m t d s Hsz) as (q' & hp & h & _ & ->). discriminate.
Qed.

Lemma Accepts_Inv m t d s q' hp h :
  Inv s ->
  num_ge (ofZ (strlen m)) (maxMessageSize s) = false ->
  Accepts m t d s q' hp h ->
  Inv (acceptedState (streamKey t d) q' hp s).
Proof.
  intros H Hsz Ha.
  pose proof (queueOf_boxcarOK (streamKey t d) s H) as Hq.
  destruct Ha as [Hnew | q0 tail E Hfit].
  - apply Inv_accepted; auto.
    + apply Forall_app; split; [exact Hq|].
      constructor; [|constructor].
      apply boxcarOK_new. exact Hsz.
    + rewrite totalMessages_app. simpl. lia.
  - rewrite E in Hq. apply Forall_app in Hq as [Hq0 Htail].
    inversion Htail as [|? ? Ht _]; subst.
    apply Inv_accepted; auto.
    + apply Forall_app; split; [exact Hq0|].
      constructor; [|constructor].
      apply boxcarOK_addMessage; [exact Ht|]. exact Hfit.
    + rewrite E, !totalMessages_app. simpl. rewrite length_app. simpl. lia.
Qed.

Lemma concat_map_app {A B} (f : A -> list B) l1 l2 :
  List.concat (map f (l1 ++ l2)) = List.concat (map f l1) ++ List.concat (map f l2).
Proof. now rewrite map_app, concat_app. Qed.

Lemma Accepts_messages m t d s q' hp h :
  Accepts m t d s q' hp h ->
  List.concat (map bc_messages q') = pendingFor (streamKey t d) s ++ [m].
Proof.
  unfold pendingFor. intros [Hnew | q0 tail E Hfit].
  - rewrite concat_map_app. reflexivity.
  - rewrite E, !concat_map_app. simpl. now rewrite !app_nil_r, app_assoc.
Qed.

Lemma pendingFor_acceptedState key key' q' hp s :
  pendingFor key' (acceptedState key q' hp s)
  = if str_eqb key' key then List.concat (map bc_messages q') else pendingFor key' s.
Proof.
  unfold pendingFor, queueOf. cbn [messages acceptedState set_pendingMessageCount set_messages].
  destruct (str_eqb key' key) eqn:E.
  - apply str_eqb_eq in E; subst. now rewrite Map_get_set_same.
  - apply str_eqb_neq in E. now rewrite Map_get_set_other.
Qed.

Lemma filter_all {A} (f : A -> bool) l :
  (forall x, In x l -> f x = true) -> filter f l = l.
Proof.
  induction l as [|a l IH]; simpl; intros H; [reflexivity|].
  rewrite (H a) by auto. f_equal. apply IH. auto.
Qed.

Lemma filter_none {A} (f : A -> bool) l :
  (forall x, In x l -> f x = false) -> filter f l = [].
Proof.
  induction l as [|a l IH]; simpl; intros H; [reflexivity|].
  rewrite (H a) by auto. apply IH. auto.
Qed.

Lemma filter_key_queues key (ms : JsMap (list IPendingBoxcar)) :
  NoDup (map fst ms) ->
  Forall (fun e => Forall (fun b => boxcarKey b = fst e) (snd e)) ms ->
  filter (fun b => str_eqb (boxcarKey b) key) (List.concat (map snd ms))
  = match Map_get key ms with Some q => q | None => [] end.
Proof.
  induction ms as [|[k0 q0] ms IH]; simpl; [reflexivity|].
  intros Hnd Hall. inversion Hnd as [|? ? Hnot Hnd']; subst.
  inversion Hall as [|? ? Hq0 Hall']; subst. simpl in Hq0.
  rewrite Forall_forall in Hq0.
  rewrite filter_app, (IH Hnd' Hall').
  destruct (str_eqb key k0) eqn:E.
  - apply str_eqb_eq in E; subst k0.
    replace (Map_get key ms) with (@None (list IPendingBoxcar)).
    + rewrite app_nil_r. apply filter_all.
      intros b Hb. rewrite (Hq0 b Hb). apply str_eqb_refl.
    + destruct (Map_get key ms) eqn:G; [|reflexivity].
      apply Map_get_In in G. exfalso. apply Hnot.
      change key with (fst (key, l)). now apply in_map.
  - rewrite filter_none; [reflexivity|].
    intros b Hb. rewrite (Hq0 b Hb). apply str_eqb_neq.
    apply str_eqb_neq in E. congruence.
Qed.

Lemma filter_key_allBoxcars key s :
  Inv s ->
  filter (fun b => str_eqb (boxcarKey b) key) (allBoxcars s) = queueOf key s.
Proof.
  intros [Hk Hb _ _]. apply filter_key_queues; [exact Hk|].
  eapply Forall_impl; [|exact Hb]. intros e He.
  eapply Forall_impl; [|exact He]. intros b (_ & _ & _ & H). exact H.
Qed.

Lemma recordKey_flushCall tp b k ts h :
  recordKey (mkProduceCall tp None (Buffer_from (JSON_stringify (boxcarMessage b))) k ts h)
  = boxcarKey b.
Proof. reflexivity. Qed.

Lemma flushCalls_contents tp clk t key bs :
  List.concat (map recordContents
                   (filter (fun c => str_eqb (recordKey c) key)
                           (flushCalls tp clk t bs)))
  = List.concat (map bc_messages
                     (filter (fun b => str_eqb (boxcarKey b) key) bs)).
Proof.
  revert t; induction bs as [|b bs IH]; intros t; [reflexivity|].
  cbn [flushCalls filter]. rewrite recordKey_flushCall.
  destruct (str_eqb (boxcarKey b) key); [|apply IH].
  rewrite !map_cons, !concat_cons, IH. reflexivity.
Qed.

(** A flush moves the pending messages of every key to the end of what was
    produced for that key. *)
Lemma flushedFor_sendPendingMessages key s :
  Inv s ->
  flushedFor key (sendPendingMessages s) = flushedFor key s ++ pendingFor key s.
Proof.
  intros H. rewrite sendPendingMessages_eq. unfold flushedFor, pendingFor. cbn.
  rewrite filter_app, concat_map_app, flushCalls_contents.
  now rewrite filter_key_allBoxcars.
Qed.

Lemma pendingFor_sendPendingMessages key s :
  pendingFor key (sendPendingMessages s) = [].
Proof. rewrite sendPendingMessages_eq. reflexivity. Qed.

Lemma delivered_ext key s s' :
  producer s = producer s' -> messages s = messages s' ->
  delivered key s = delivered key s'.
Proof.
  intros Hp Hm. unfold delivered, flushedFor, pendingFor, queueOf.
  now rewrite Hp, Hm.
Qed.

Lemma delivered_sendPendingMessages key s :
  Inv s -> delivered key (sendPendingMessages s) = delivered key s.
Proof.
  intros H. unfold delivered.
  rewrite flushedFor_sendPendingMessages, pendingFor_sendPendingMessages by assumption.
  now rewrite app_nil_r.
Qed.

Lemma delivered_requestSend key s :
  Inv s -> delivered key (requestSend s) = delivered key s.
Proof.
  intros H. unfold requestSend.
  destruct (connected s); simpl negb; cbv iota; [|reflexivity].
  destruct (MaxBatchSize <=? pendingMessageCount s).
  - rewrite delivered_sendPendingMessages.
    + destruct (sendPending s); reflexivity.
    + destruct H as [Hk Hb Hc Hs].
      destruct (sendPending s) as [i|]; split; cbn in *; auto.
      rewrite Hs. simpl. now rewrite Nat.eqb_refl.
  - destruct (sendPending s); reflexivity.
Qed.

Lemma delivered_step key s ev :
  Inv s ->
  delivered key (step s ev)
  = delivered key s ++ acceptedFor (maxMessageSize s) key [ev].
Proof.
  intros H. destruct ev as [m t d| e data | | e r |]; simpl; rewrite ?app_nil_r.
  - destruct (num_ge (ofZ (strlen m)) (maxMessageSize s)) eqn:Hsz.
    { rewrite send_oversized by assumption. rewrite andb_false_r. simpl.
      now rewrite app_nil_r. }
    destruct (send_accepts m t d s Hsz) as (q' & hp & h & Ha & ->). cbn [snd].
    rewrite delivered_requestSend by (eapply Accepts_Inv; eassumption).
    unfold delivered. rewrite pendingFor_acceptedState.
    rewrite andb_true_r, (Accepts_messages _ _ _ _ _ _ _ Ha).
    replace (str_eqb (streamKey t d) key) with (str_eqb key (streamKey t d)).
    + destruct (str_eqb key (streamKey t d)) eqn:E; simpl.
      * apply str_eqb_eq in E; subst. now rewrite app_assoc.
      * now rewrite app_nil_r.
    + destruct (str_eqb key (streamKey t d)) eqn:E.
      * apply str_eqb_eq in E; subst. now rewrite str_eqb_refl.
      * symmetry. apply str_eqb_neq. apply str_eqb_neq in E. congruence.
  - unfold onConnect. rewrite delivered_requestSend; [reflexivity|].
    destruct H as [Hk Hb Hc Hs]. split; auto.
  - unfold runImmediate. destruct (immediateQueue s) eqn:E; [reflexivity|].
    rewrite <- (delivered_sendPendingMessages key s H).
    apply delivered_ext; rewrite !sendPendingMessages_eq; reflexivity.
  - destruct e; reflexivity.
  - now apply delivered_sendPendingMessages.
Qed.

Lemma acceptedFor_app limit key a b :
  acceptedFor limit key (a ++ b) = acceptedFor limit key a ++ acceptedFor limit key b.
Proof. apply flat_map_app. Qed.

Lemma delivered_run key evs s :
  Inv s ->
  delivered key (run s evs) = delivered key s ++ acceptedFor (maxMessageSize s) key evs.
Proof.
  revert s; induction evs as [|ev evs IH]; intros s H.
  - simpl. now rewrite app_nil_r.
  - change (run s (ev :: evs)) with (run (step s ev) evs).
    rewrite IH by now apply Inv_step.
    rewrite delivered_step by assumption.
    destruct (sameConfig_step s ev) as (-> & _).
    change (ev :: evs) with ([ev] ++ evs).
    now rewrite acceptedFor_app, app_assoc.
Qed.

(** ** Completion handles and the callers that hold them *)

Lemma Linked_ext s s' log :
  messages s' = messages s -> producer s' = producer s -> heap s' = heap s ->
  Linked s log -> Linked s' log.
Proof.
  intros Hm Hp Hh [H1 H2 H3 H4 H5].
  split; unfold usedHandles, allBoxcars in *; rewrite ?Hm, ?Hp, ?Hh; assumption.
Qed.

Lemma flushCalls_opaque tp clk t bs :
  map pc_opaque (flushCalls tp clk t bs) = map bc_deferred bs.
Proof. revert t; induction bs; intros; simpl; [|rewrite IHbs]; reflexivity. Qed.

Lemma flushCalls_linked log tp clk t bs :
  Forall (fun b => bc_messages b = holders log (bc_deferred b)) bs ->
  Forall (fun c => recordContents c = holders log (pc_opaque c))
         (flushCalls tp clk t bs).
Proof.
  intros H. revert t. induction H as [|b bs Hb _ IH]; intros t; simpl;
    constructor; auto.
Qed.

Lemma Linked_sendPendingMessages s log :
  Linked s log -> Linked (sendPendingMessages s) log.
Proof.
  intros [H1 H2 H3 H4 H5]. rewrite sendPendingMessages_eq.
  split; unfold usedHandles, allBoxcars in *; cbn.
  - rewrite map_app, flushCalls_opaque.
    eapply Permutation_NoDup; [apply Permutation_app_comm|].
    exact H1.
  - rewrite map_app, flushCalls_opaque.
    apply Forall_app in H2 as [Ha Hb]. apply Forall_app; split; assumption.
  - exact H3.
  - constructor.
  - apply Forall_app; split; [exact H5|]. now apply flushCalls_linked.
Qed.

Lemma Linked_requestSend s log : Linked s log -> Linked (requestSend s) log.
Proof.
  intros H. unfold requestSend.
  destruct (connected s); simpl negb; cbv iota; [|exact H].
  destruct (MaxBatchSize <=? pendingMessageCount s).
  - apply Linked_sendPendingMessages.
    eapply Linked_ext; [| | |exact H]; destruct (sendPending s); reflexivity.
  - destruct (sendPending s); [exact H|].
    eapply Linked_ext; [| | |exact H]; reflexivity.
Qed.

Lemma Linked_runImmediate s log : Linked s log -> Linked (runImmediate s) log.
Proof.
  intros H. unfold runImmediate. destruct (immediateQueue s); [exact H|].
  eapply Linked_ext with (s := sendPendingMessages s);
    [| | |now apply Linked_sendPendingMessages];
    rewrite !sendPendingMessages_eq; reflexivity.
Qed.

Lemma settle_length d v hp : List.length (settle d v hp) = List.length hp.
Proof.
  revert d; induction hp as [|p hp IH]; intros d; [destruct d; reflexivity|].
  destruct d; simpl; [destruct p; reflexivity | destruct p; simpl; now rewrite IH].
Qed.

Lemma Linked_onDeliveryReport e r s log :
  Linked s log -> Linked (onDeliveryReport e r s) log.
Proof.
  intros [H1 H2 H3 H4 H5].
  destruct e; split; unfold usedHandles, allBoxcars, logAllocated in *; cbn;
    rewrite ?settle_length; assumption.
Qed.

Lemma holders_app log log' h : holders (log ++ log') h = holders log h ++ holders log' h.
Proof. apply flat_map_app. Qed.

Lemma holders_unallocated hp log h :
  Forall (logAllocated hp) log -> (List.length hp <= h)%nat -> holders log h = [].
Proof.
  intros H Hh. induction H as [|[m r] log Hr _ IH]; [reflexivity|].
  unfold holders in *. simpl. rewrite IH.
  destruct r as [ | h' | ]; try reflexivity.
  unfold logAllocated in Hr. simpl in Hr.
  destruct (Nat.eqb_spec h' h); [lia | reflexivity].
Qed.

Lemma holders_snoc_other log m h h' :
  h <> h' -> holders (log ++ [(m, Promise_of h)]) h' = holders log h'.
Proof.
  intros Hne. rewrite holders_app. unfold holders at 2. simpl.
  destruct (Nat.eqb_spec h h'); [contradiction | now rewrite app_nil_r].
Qed.

Lemma holders_snoc_same log m h :
  holders (log ++ [(m, Promise_of h)]) h = holders log h ++ [m].
Proof.
  rewrite holders_app. unfold holders at 2. simpl. now rewrite Nat.eqb_refl.
Qed.

(** Where the boxcars of a key sit among all the boxcars, before and after
    the queue of the key is written. *)
Lemma allBoxcars_Map_set key q' (ms : JsMap (list IPendingBoxcar)) :
  exists X Y,
    List.concat (map snd ms)
    = X ++ match Map_get key ms with Some q => q | None => [] end ++ Y
    /\ List.concat (map snd (Map_set key q' ms)) = X ++ q' ++ Y.
Proof.
  induction ms as [|[k0 q0] ms IH]; simpl.
  - exists [], []. auto.
  - destruct (str_eqb key k0); simpl.
    + exists [], (List.concat (map snd ms)). auto.
    + destruct IH as (X & Y & -> & ->). exists (q0 ++ X), Y.
      now rewrite <- !app_assoc.
Qed.

Lemma Permutation_snoc_middle {A} (X q Y : list A) n :
  Permutation (n :: X ++ q ++ Y) (X ++ (q ++ [n]) ++ Y).
Proof.
  replace (X ++ (q ++ [n]) ++ Y) with ((X ++ q) ++ n :: Y)
    by (rewrite <- !app_assoc; reflexivity).
  replace (n :: X ++ q ++ Y) with (n :: (X ++ q) ++ Y)
    by (rewrite <- app_assoc; reflexivity).
  apply Permutation_middle.
Qed.

Lemma Linked_accepted m t d s q' hp h log :
  Linked s log ->
  Accepts m t d s q' hp h ->
  Linked (acceptedState (streamKey t d) q' hp s) (log ++ [(m, Promise_of h)]).
Proof.
  intros [H1 H2 H3 H4 H5] Ha.
  destruct (allBoxcars_Map_set (streamKey t d) q' (messages s)) as (X & Y & Eb & Ea).
  unfold usedHandles, allBoxcars in *. fold (queueOf (streamKey t d) s) in Eb.
  rewrite Eb in *. clear Eb.
  rewrite Forall_forall in H2, H4, H5.
  destruct Ha as [Hnew | q0 tail E Hfit].
  - (* a new boxcar with the handle [length (heap s)] *)
    set (q := queueOf (streamKey t d) s) in *.
    set (n := mkPendingBoxcar (List.length (heap s)) d [m] (strlen m) t) in *.
    assert (Hfresh : ~ In (List.length (heap s))
                       (map bc_deferred (X ++ q ++ Y) ++ map pc_opaque (producer s))).
    { intros Hin. apply H2 in Hin. lia. }
    assert (Hperm : Permutation
                      (List.length (heap s)
                       :: map bc_deferred (X ++ q ++ Y) ++ map pc_opaque (producer s))
                      (map bc_deferred (X ++ (q ++ [n]) ++ Y) ++ map pc_opaque (producer s))).
    { change (List.length (heap s) :: map bc_deferred (X ++ q ++ Y) ++ map pc_opaque (producer s))
        with (map bc_deferred (n :: X ++ q ++ Y) ++ map pc_opaque (producer s)).
      apply Permutation_app_tail, Permutation_map, Permutation_snoc_middle. }
    split; cbn; rewrite ?Ea.
    + eapply Permutation_NoDup; [exact Hperm|]. now constructor.
    + eapply Permutation_Forall; [exact Hperm|].
      rewrite length_app. simpl. constructor; [lia|].
      apply Forall_forall. intros x Hx. apply H2 in Hx. lia.
    + apply Forall_app; split.
      * eapply Forall_impl; [|exact H3]. intros [m0 r]. unfold logAllocated. simpl.
        destruct r; auto. rewrite length_app. simpl. lia.
      * constructor; [|constructor]. unfold logAllocated. simpl.
        rewrite length_app. simpl. lia.
    + eapply Permutation_Forall; [apply Permutation_snoc_middle|].
      constructor.
      * simpl. rewrite holders_snoc_same.
        now rewrite (holders_unallocated (heap s) log) by auto.
      * apply Forall_forall. intros b Hb. rewrite holders_snoc_other; [now apply H4|].
        intros Heq. apply Hfresh. rewrite Heq.
        apply in_or_app. left. now apply in_map.
    + apply Forall_forall. intros c Hc. rewrite holders_snoc_other; [now apply H5|].
      intros Heq. apply Hfresh. rewrite Heq.
      apply in_or_app. right. now apply in_map.
  - (* one more message in the tail boxcar *)
    rewrite E in *.
    assert (Hsame : map bc_deferred (X ++ (q0 ++ [addMessage m tail]) ++ Y)
                    = map bc_deferred (X ++ (q0 ++ [tail]) ++ Y)).
    { now rewrite !map_app. }
    assert (Hother : ~ In (bc_deferred tail)
                       (map bc_deferred (X ++ q0) ++ map bc_deferred Y
                        ++ map pc_opaque (producer s))).
    { replace (map bc_deferred (X ++ (q0 ++ [tail]) ++ Y) ++ map pc_opaque (producer s))
        with (map bc_deferred (X ++ q0)
              ++ bc_deferred tail :: map bc_deferred Y ++ map pc_opaque (producer s))
        in H1.
      - apply NoDup_remove_2 in H1. exact H1.
      - rewrite !map_app. simpl. now rewrite <- !app_assoc. }
    assert (Htail : (bc_deferred tail < List.length (heap s))%nat).
    { apply H2. apply in_or_app. left. apply in_map.
      apply in_or_app. right. apply in_or_app. left. apply in_or_app. right.
      now left. }
    split; cbn; rewrite ?Ea, ?Hsame; auto.
    + apply Forall_forall. exact H2.
    + apply Forall_app; split; [exact H3|].
      constructor; [|constructor]. exact Htail.
    + apply Forall_forall. intros b Hb.
      apply in_app_or in Hb as [Hb | Hb];
        [|apply in_app_or in Hb as [Hb | Hb]; [apply in_app_or in Hb as [Hb | Hb]|]].
      * rewrite holders_snoc_other.
        -- apply H4. apply in_or_app. now left.
        -- intros Heq. apply Hother. rewrite Heq.
           apply in_or_app. left. apply in_map. apply in_or_app. now left.
      * rewrite holders_snoc_other.
        -- apply H4. apply in_or_app. right. apply in_or_app. left.
           apply in_or_app. now left.
        -- intros Heq. apply Hother. rewrite Heq.
           apply in_or_app. left. apply in_map. apply in_or_app. now right.
      * destruct Hb as [<- | []]. cbn. rewrite holders_snoc_same. f_equal.
        apply H4. apply in_or_app. right. apply in_or_app. left.
        apply in_or_app. right. now left.
      * rewrite holders_snoc_other.
        -- apply H4. apply in_or_app. right. apply in_or_app. now right.
        -- intros Heq. apply Hother. rewrite Heq.
           apply in_or_app. right. apply in_or_app. left. now apply in_map.
    + apply Forall_forall. intros c Hc. rewrite holders_snoc_other; [now apply H5|].
      intros Heq. apply Hother. rewrite Heq.
      apply in_or_app. right. apply in_or_app. right. now apply in_map.
Qed.

Lemma Linked_rejected s log m reason :
  Linked s log -> Linked s (log ++ [(m, Promise_reject reason)]).
Proof.
  intros [H1 H2 H3 H4 H5]. split; auto.
  - apply Forall_app; split; [exact H3|]. repeat constructor.
  - eapply Forall_impl; [|exact H4]. intros b ->.
    rewrite holders_app. simpl. now rewrite app_nil_r.
  - eapply Forall_impl; [|exact H5]. intros c ->.
    rewrite holders_app. simpl. now rewrite app_nil_r.
Qed.

Lemma Linked_step s log ev :
  Linked s log -> Linked (step s ev) (log ++ sendLog s [ev]).
Proof.
  intros H. destruct ev as [m t d| e data | | e r |]; simpl; rewrite ?app_nil_r.
  - destruct (num_ge (ofZ (strlen m)) (maxMessageSize s)) eqn:Hsz.
    + rewrite send_oversized by assumption. now apply Linked_rejected.
    + destruct (send_accepts m t d s Hsz) as (q' & hp & h & Ha & ->). cbn [fst snd].
      eapply Linked_requestSend, Linked_accepted; eassumption.
  - unfold onConnect. apply Linked_requestSend.
    eapply Linked_ext; [| | |exact H]; reflexivity.
  - now apply Linked_runImmediate.
  - now apply Linked_onDeliveryReport.
  - now apply Linked_sendPendingMessages.
Qed.

Lemma sendLog_cons s ev evs :
  sendLog s (ev :: evs) = sendLog s [ev] ++ sendLog (step s ev) evs.
Proof. simpl. now rewrite app_nil_r. Qed.

Lemma Linked_run evs s log :
  Linked s log -> Linked (run s evs) (log ++ sendLog s evs).
Proof.
  revert s log; induction evs as [|ev evs IH]; intros s log H.
  - simpl. now rewrite app_nil_r.
  - change (run s (ev :: evs)) with (run (step s ev) evs).
    rewrite sendLog_cons, app_assoc. apply IH. now apply Linked_step.
Qed.

Lemma Linked_constructor endpoint tp maxSize clk :
  Linked (constructor endpoint tp maxSize clk) [].
Proof. split; cbn; constructor. Qed.

(** ** Settling a handle *)

Lemma promiseState_settle_same d v hp :
  (d < List.length hp)%nat -> promiseState hp d = Pending ->
  promiseState (settle d v hp) d = v.
Proof.
  unfold promiseState. revert d; induction hp as [|p hp IH]; intros d Hd Hp.
  - simpl in Hd. lia.
  - destruct d; simpl in *.
    + subst p. reflexivity.
    + destruct p; simpl; apply IH; auto; lia.
Qed.

Lemma promiseState_settle_other d d' v hp :
  d' <> d -> promiseState (settle d v hp) d' = promiseState hp d'.
Proof.
  unfold promiseState. revert d d'; induction hp as [|p hp IH]; intros d d' Hne.
  - destruct d; reflexivity.
  - destruct d, d'; simpl; try congruence.
    + destruct p; reflexivity.
    + destruct p; reflexivity.
    + destruct p; simpl; apply IH; congruence.
Qed.

Lemma settle_settled d v hp :
  promiseState hp d <> Pending -> settle d v hp = hp.
Proof.
  unfold promiseState. revert d; induction hp as [|p hp IH]; intros d Hp.
  - destruct d; reflexivity.
  - destruct d; simpl in *.
    + destruct p; congruence.
    + destruct p; simpl; f_equal; auto.
Qed.

(** ** [requestSend] below the batch ceiling *)

Lemma requestSend_below s :
  pendingMessageCount s < MaxBatchSize ->
  requestSend s
  = if connected s
    then match sendPending s with Some _ => s | None => scheduled s end
    else s.
Proof.
  intros H. unfold requestSend.
  destruct (connected s); simpl negb; cbv iota; [|reflexivity].
  destruct (Z.leb_spec MaxBatchSize (pendingMessageCount s)); [lia|].
  destruct (sendPending s); reflexivity.
Qed.

Lemma sameBatch_requestSend s :
  pendingMessageCount s < MaxBatchSize -> sameBatch s (requestSend s).
Proof.
  intros H. rewrite requestSend_below by assumption.
  destruct (connected s); [destruct (sendPending s)|]; repeat split.
Qed.

Lemma queueOf_single key q s :
  messages s = [(key, q)] -> queueOf key s = q.
Proof. intros H. unfold queueOf. rewrite H. simpl. now rewrite str_eqb_refl. Qed.

(** The scenario of three messages of length 40 under a limit of 100. *)
Lemma three_messages_two_boxcars s m1 m2 m3 t d :
  isNumber (maxMessageSize s) 100 ->
  messages s = [] ->
  pendingMessageCount s = 0 ->
  strlen m1 = 40 -> strlen m2 = 40 -> strlen m3 = 40 ->
  messages (run s [EvSend m1 t d; EvSend m2 t d; EvSend m3 t d])
  = [(streamKey t d,
      [mkPendingBoxcar (List.length (heap s)) d [m1; m2] 80 t;
       mkPendingBoxcar (S (List.length (heap s))) d [m3] 40 t])]
  /\ producer (run s [EvSend m1 t d; EvSend m2 t d; EvSend m3 t d]) = producer s.
Proof.
  intros Hlim Hm Hc L1 L2 L3.
  destruct (maxMessageSize s) as [| | |limit] eqn:Elim; try contradiction.
  cbn [isNumber] in Hlim.
  assert (Hmax : 3 < MaxBatchSize) by (vm_compute; reflexivity).
  assert (Hfit : forall x, x < 100 -> num_ge (ofZ x) (Num limit) = false).
  { intros x Hx. apply num_ge_Num_false. rewrite Hlim. unfold Qlt. simpl. lia. }
  simpl run.
  (* first message: the queue is empty *)
  assert (Q0 : queueOf (streamKey t d) s = []).
  { unfold queueOf. now rewrite Hm. }
  rewrite (send_new m1 t d s); [|rewrite L1, Elim; apply Hfit; lia | now rewrite Q0].
  cbn [snd]. rewrite Q0, L1. cbn [app].
  set (b1 := mkPendingBoxcar (List.length (heap s)) d [m1] 40 t).
  set (a1 := acceptedState (streamKey t d) [b1] (heap s ++ [Pending]) s).
  destruct (sameBatch_requestSend a1) as (M1 & P1 & C1 & H1 & X1 & _);
    [cbn; lia|].
  set (s1 := requestSend a1) in *.
  assert (X1' : maxMessageSize s1 = Num limit).
  { rewrite X1. exact Elim. }
  assert (M1' : messages s1 = [(streamKey t d, [b1])]).
  { rewrite M1. cbn. now rewrite Hm. }
  (* second message: it fits the tail *)
  assert (Hsz2 : num_ge (ofZ (strlen m2)) (maxMessageSize s1) = false).
  { rewrite X1', L2. apply Hfit. lia. }
  destruct (send_join m2 t d s1 Hsz2) as (q0 & tail & E & _ & ->).
  { rewrite (queueOf_single _ _ _ M1'). change [b1] with ([] ++ [b1]).
    rewrite needsNewBoxcar_snoc.
    rewrite X1', L2. cbn [bc_size b1]. apply num_gt_Num_false.
    rewrite Hlim. unfold Qle. simpl. lia. }
  rewrite (queueOf_single _ _ _ M1') in E.
  change [b1] with ([] ++ [b1]) in E. apply app_inj_tail in E as [<- <-].
  cbn [snd app].
  set (b12 := addMessage m2 b1).
  assert (B12 : b12 = mkPendingBoxcar (List.length (heap s)) d [m1; m2] 80 t).
  { unfold b12, addMessage, b1. cbn. now rewrite L2. }
  set (a2 := acceptedState (streamKey t d) [b12] (heap s1) s1).
  destruct (sameBatch_requestSend a2) as (M2 & P2 & C2 & H2 & X2 & _);
    [cbn; rewrite C1; cbn; lia|].
  set (s2 := requestSend a2) in *.
  assert (X2' : maxMessageSize s2 = Num limit).
  { rewrite X2. exact X1'. }
  assert (M2' : messages s2 = [(streamKey t d, [b12])]).
  { rewrite M2. cbn. rewrite M1'. cbn. now rewrite str_eqb_refl. }
  (* third message: the tail would grow beyond the limit *)
  assert (Hsz3 : num_ge (ofZ (strlen m3)) (maxMessageSize s2) = false).
  { rewrite X2', L3. apply Hfit. lia. }
  rewrite (send_new m3 t d s2 Hsz3).
  2:{ rewrite (queueOf_single _ _ _ M2'). change [b12] with ([] ++ [b12]).
      rewrite needsNewBoxcar_snoc.
      rewrite X2', L3, B12. cbn [bc_size]. apply num_gt_Num_true. rewrite Hlim.
      unfold Qlt. simpl. lia. }
  cbn [snd]. rewrite (queueOf_single _ _ _ M2'), L3.
  set (b3 := mkPendingBoxcar (List.length (heap s2)) d [m3] 40 t).
  set (a3 := acceptedState (streamKey t d) ([b12] ++ [b3]) (heap s2 ++ [Pending]) s2).
  destruct (sameBatch_requestSend a3) as (M3 & P3 & _);
    [cbn; rewrite C2; cbn; rewrite C1; cbn; lia|].
  split.
  - rewrite M3. cbn. rewrite M2'. cbn. rewrite str_eqb_refl.
    unfold b3. rewrite B12, H2. cbn. rewrite H1. cbn. rewrite length_app. simpl.
    now rewrite Nat.add_1_r.
  - rewrite P3. cbn. rewrite P2. cbn. rewrite P1. reflexivity.
Qed.

(** Under the limit 2 that rounding gives for [2.6666666666666665], two
    messages of length 1 share a boxcar of size 2. *)
Lemma rounded_limit_boxcar :
  allBoxcars (run (constructor (js "kafka:9092") (js "rawdeltas") belowEightThirds
                               exampleClock)
                  [EvSend (js "a") (js "T") (js "D"); EvSend (js "b") (js "T") (js "D")])
  = [mkPendingBoxcar 0%nat (js "D") [js "a"; js "b"] 2 (js "T")].
Proof. vm_compute. reflexivity. Qed.

Lemma reachable_Linked s :
  reachable s -> exists log, Linked s log.
Proof.
  intros (endpoint & tp & maxSize & clk & evs & ->).
  exists ([] ++ sendLog (constructor endpoint tp maxSize clk) evs).
  apply Linked_run, Linked_constructor.
Qed.

(** ** Coalescing *)

Lemma send_coalesce m t d s :
  connected s = true ->
  pendingMessageCount s + 1 < MaxBatchSize ->
  producer (snd (send m t d s)) = producer s
  /\ connected (snd (send m t d s)) = true
  /\ ticks (snd (send m t d s)) = ticks s
  /\ pendingMessageCount (snd (send m t d s)) <= pendingMessageCount s + 1
  /\ (forall i, sendPending s = Some i -> sendPending (snd (send m t d s)) = Some i)
  /\ (num_ge (ofZ (strlen m)) (maxMessageSize s) = false ->
      sendPending (snd (send m t d s)) <> None).
Proof.
  intros Hc Hb.
  destruct (num_ge (ofZ (strlen m)) (maxMessageSize s)) eqn:Hsz.
  - rewrite send_oversized by assumption. cbn [snd].
    repeat split; auto; try lia; congruence.
  - destruct (send_accepts m t d s Hsz) as (q' & hp & h & _ & ->). cbn [snd].
    rewrite requestSend_below by exact Hb.
    cbn [connected acceptedState set_pendingMessageCount set_messages set_heap
         sendPending].
    rewrite Hc. destruct (sendPending s) as [i|] eqn:E; cbn; rewrite ?E;
      repeat split; auto; try lia; try congruence.
Qed.

Lemma sends_coalesce sends :
  forall s,
    Inv s ->
    connected s = true ->
    pendingMessageCount s + Z.of_nat (List.length sends) < MaxBatchSize ->
    producer (run s (sendAll sends)) = producer s
    /\ ticks (run s (sendAll sends)) = ticks s
    /\ (forall i, sendPending s = Some i ->
                  sendPending (run s (sendAll sends)) = Some i)
    /\ (Exists (fun x => num_ge (ofZ (strlen (fst (fst x)))) (maxMessageSize s) = false)
               sends ->
        sendPending (run s (sendAll sends)) <> None).
Proof.
  induction sends as [|[[m t] d] sends IH]; intros s HI Hc Hb.
  - simpl. repeat split; auto. intros H. inversion H.
  - change (run s (sendAll (((m, t), d) :: sends)))
      with (run (snd (send m t d s)) (sendAll sends)).
    simpl List.length in Hb. rewrite Nat2Z.inj_succ in Hb.
    destruct (send_coalesce m t d s Hc) as (P1 & C1 & T1 & B1 & K1 & A1); [lia|].
    destruct (IH (snd (send m t d s))) as (P2 & T2 & K2 & A2);
      [now apply Inv_send | exact C1 | lia |].
    destruct (sameConfig_send m t d s) as (X1 & _).
    repeat split; try congruence.
    + intros i Hi. apply K2, K1, Hi.
    + intros Hex. inversion Hex as [x l Hfit | x l Hrest]; subst.
      * simpl in Hfit. specialize (A1 Hfit).
        destruct (sendPending (snd (send m t d s))) as [i|] eqn:E; [|congruence].
        rewrite (K2 i eq_refl). discriminate.
      * apply A2. rewrite X1. exact Hrest.
Qed.

(** ** The counter and the sizes *)

Lemma counted_ext s s' :
  messages s' = messages s ->
  pendingMessageCount s' = pendingMessageCount s ->
  counted s -> counted s'.
Proof.
  unfold counted, allBoxcars. intros -> ->. auto.
Qed.

Lemma counted_sendPendingMessages s : counted (sendPendingMessages s).
Proof. rewrite sendPendingMessages_eq. split; cbn; [reflexivity | constructor]. Qed.

Lemma counted_requestSend s : counted s -> counted (requestSend s).
Proof.
  intros H. unfold requestSend.
  destruct (connected s); simpl negb; cbv iota; [|exact H].
  destruct (MaxBatchSize <=? pendingMessageCount s);
    [apply counted_sendPendingMessages|].
  destruct (sendPending s); [exact H|].
  eapply counted_ext; [| |exact H]; reflexivity.
Qed.

Lemma counted_accepted m t d s q' hp h :
  counted s ->
  Accepts m t d s q' hp h ->
  counted (acceptedState (streamKey t d) q' hp s).
Proof.
  intros [Hc Hb] Ha. unfold counted, allBoxcars in *. cbn. split.
  - rewrite totalMessages_Map_set. fold (queueOf (streamKey t d) s).
    destruct Ha as [Hnew | q0 tail E Hfit].
    + rewrite totalMessages_app. simpl. lia.
    + rewrite E, !totalMessages_app. simpl. rewrite length_app. simpl. lia.
  - destruct (allBoxcars_Map_set (streamKey t d) q' (messages s))
      as (X & Y & Eb & ->).
    fold (queueOf (streamKey t d) s) in Eb. rewrite Eb in Hb.
    apply Forall_app in Hb as [HX Hb]. apply Forall_app in Hb as [Hq HY].
    apply Forall_app; split; [exact HX|]. apply Forall_app; split; [|exact HY].
    destruct Ha as [Hnew | q0 tail E Hfit].
    + apply Forall_app; split; [exact Hq|].
      constructor; [|constructor]. cbn. split; [discriminate | lia].
    + rewrite E in Hq. apply Forall_app in Hq as [Hq0 Ht].
      inversion Ht as [|? ? [Hne Hsz] _]; subst.
      apply Forall_app; split; [exact Hq0|].
      constructor; [|constructor]. cbn. split.
      * destruct (bc_messages tail); discriminate.
      * rewrite sumLengths_app, Hsz. simpl. lia.
Qed.

Lemma counted_send m t d s : counted s -> counted (snd (send m t d s)).
Proof.
  intros H.
  destruct (num_ge (ofZ (strlen m)) (maxMessageSize s)) eqn:Hsz.
  - now rewrite send_oversized.
  - destruct (send_accepts m t d s Hsz) as (q' & hp & h & Ha & ->). cbn [snd].
    eapply counted_requestSend, counted_accepted; eassumption.
Qed.

Lemma Inv_counted s : Inv s -> counted s.
Proof.
  intros [_ Hb Hc _]. split; [exact Hc|]. unfold allBoxcars.
  induction Hb as [|[k q] ms Hq _ IH]; simpl; [constructor|].
  apply Forall_app; split; [|exact IH].
  eapply Forall_impl; [|exact Hq]. intros b (H1 & H2 & _). auto.
Qed.

Lemma connected_requestSend s : connected (requestSend s) = connected s.
Proof.
  unfold requestSend.
  destruct (connected s) eqn:E; simpl negb; cbv iota; [|exact E].
  destruct (MaxBatchSize <=? pendingMessageCount s).
  - rewrite sendPendingMessages_eq. cbn. destruct (sendPending s); exact E.
  - destruct (sendPending s); exact E.
Qed.

(** * The claims *)

(** C1.  A message whose length is at least the effective size limit, which
    is 75% of the configured maximum message size (the product of the
    configured double with [0.75]), is refused: in every state a run can
    lead to, [send] returns the promise rejected with "Message too large"
    and the state it leaves is the state it found, so no queue entry and no
    boxcar is created, no boxcar is appended to and the pending-message
    counter is unchanged. *)
Theorem C1_oversized_message_rejected :
  forall endpoint tp (maxSize : spec_float) clk evs m t d,
    num_ge (ofZ (strlen m)) (effectiveLimit maxSize) = true ->
    let s := run (constructor endpoint tp maxSize clk) evs in
    send m t d s = (Promise_reject (js "Message too large"), s).
Proof.
  intros endpoint tp maxSize clk evs m t d H s. subst s.
  apply send_oversized.
  destruct (sameConfig_run evs (constructor endpoint tp maxSize clk)) as (-> & _).
  exact H.
Qed.

Lemma C1_witness :
  send (text 150 97) (js "T") (js "D")
       (run exampleProducer [EvConnect None []; EvSend (text 10 98) (js "T") (js "D")])
  = (Promise_reject (js "Message too large"),
     run exampleProducer [EvConnect None []; EvSend (text 10 98) (js "T") (js "D")]).
Proof.
  apply (C1_oversized_message_rejected
           (js "kafka:9092") (js "rawdeltas") (double 200) exampleClock
           [EvConnect None []; EvSend (text 10 98) (js "T") (js "D")]
           (text 150 97) (js "T") (js "D")).
  vm_compute. reflexivity.
Defined.

(** C2, as stated, fails, in two ways.  With effective limit 150 and a tail
    boxcar of size 80, a message of length 150 added to the tail would
    exceed the limit, yet [send] starts no boxcar: it refuses the message
    and the queue of the key keeps its single boxcar.  And when the
    configured maximum is not a number, so is the limit: two messages of
    length 100 go to one boxcar of size 200, which is not at most the
    limit. *)
Lemma C2_counterexample :
  (exists tail,
    tailBoxcar (queueOf (streamKey (js "T") (js "D"))
                        (run exampleProducer [EvSend (text 80 97) (js "T") (js "D")]))
    = Some tail
    /\ num_gt (ofZ (bc_size tail + strlen (text 150 98)))
              (maxMessageSize (run exampleProducer [EvSend (text 80 97) (js "T") (js "D")]))
       = true
    /\ fst (send (text 150 98) (js "T") (js "D")
                 (run exampleProducer [EvSend (text 80 97) (js "T") (js "D")]))
       = Promise_reject (js "Message too large")
    /\ queueOf (streamKey (js "T") (js "D"))
               (snd (send (text 150 98) (js "T") (js "D")
                          (run exampleProducer [EvSend (text 80 97) (js "T") (js "D")])))
       = [tail])
  /\ maxMessageSize (run exampleProducerNaN
                         [EvSend (text 100 97) (js "T") (js "D");
                          EvSend (text 100 98) (js "T") (js "D")])
     = NaN
  /\ allBoxcars (run exampleProducerNaN
                     [EvSend (text 100 97) (js "T") (js "D");
                      EvSend (text 100 98) (js "T") (js "D")])
     = [mkPendingBoxcar 0%nat (js "D") [text 100 97; text 100 98] 200 (js "T")]
  /\ js_le (ofZ 200)
           (maxMessageSize (run exampleProducerNaN
                                [EvSend (text 100 97) (js "T") (js "D");
                                 EvSend (text 100 98) (js "T") (js "D")]))
     = false.
Proof.
  split; [eexists|]; repeat split; vm_compute; reflexivity.
Qed.

(** C2, amended.  In every reachable state no pending boxcar has a size
    that exceeds the effective limit, and, unless the limit is NaN, the
    size of every pending boxcar is at most the limit; and a [send] whose
    message passes the size check and whose length added to the size of
    the tail boxcar of its key exceeds the limit leaves the tail as it is
    and appends a new boxcar, holding that one message, to the queue of
    the key before it asks for a flush. *)
Theorem C2_boxcar_size_bound :
  forall s, reachable s ->
    Forall (fun b => num_gt (ofZ (bc_size b)) (maxMessageSize s) = false) (allBoxcars s)
    /\ (maxMessageSize s <> NaN ->
        Forall (fun b => js_le (ofZ (bc_size b)) (maxMessageSize s) = true) (allBoxcars s))
    /\ forall m t d tail,
         num_ge (ofZ (strlen m)) (maxMessageSize s) = false ->
         tailBoxcar (queueOf (streamKey t d) s) = Some tail ->
         num_gt (ofZ (bc_size tail + strlen m)) (maxMessageSize s) = true ->
         send m t d s
         = (Promise_of (List.length (heap s)),
            requestSend
              (acceptedState (streamKey t d)
                 (queueOf (streamKey t d) s
                  ++ [mkPendingBoxcar (List.length (heap s)) d [m] (strlen m) t])
                 (heap s ++ [Pending]) s)).
Proof.
  intros s Hr. apply reachable_Inv in Hr.
  assert (Hgt : Forall (fun b => num_gt (ofZ (bc_size b)) (maxMessageSize s) = false)
                       (allBoxcars s)).
  { destruct Hr as [_ Hb _ _]. unfold allBoxcars.
    induction Hb as [|[k q] ms Hq _ IH]; simpl; [constructor|].
    apply Forall_app; split; [|exact IH].
    eapply Forall_impl; [|exact Hq]. intros b (_ & _ & H & _). exact H. }
  split; [exact Hgt|]. split.
  - intros Hnum. eapply Forall_impl; [|exact Hgt].
    intros b Hb. now apply num_gt_false_le.
  - intros m t d tail Hfit Htail Hover.
    apply send_new; [exact Hfit|].
    destruct (snoc_cases (queueOf (streamKey t d) s)) as [E | (q0 & b & E)];
      rewrite E in *; [reflexivity|].
    rewrite tailBoxcar_snoc in Htail. injection Htail as ->.
    rewrite needsNewBoxcar_snoc. exact Hover.
Qed.

Lemma C2_witness :
  Forall (fun b =>
            js_le (ofZ (bc_size b))
                  (maxMessageSize (run exampleProducer [EvSend (text 80 97) (js "T") (js "D")]))
            = true)
         (allBoxcars (run exampleProducer [EvSend (text 80 97) (js "T") (js "D")]))
  /\ fst (send (text 80 98) (js "T") (js "D")
               (run exampleProducer [EvSend (text 80 97) (js "T") (js "D")]))
     = Promise_of 1%nat.
Proof.
  destruct (C2_boxcar_size_bound
              (run exampleProducer [EvSend (text 80 97) (js "T") (js "D")]))
    as (_ & Hbound & Hnew).
  - exists (js "kafka:9092"), (js "rawdeltas"), (double 200), exampleClock,
           [EvSend (text 80 97) (js "T") (js "D")].
    reflexivity.
  - split.
    + apply Hbound. vm_compute. discriminate.
    + rewrite (Hnew (text 80 98) (js "T") (js "D")
                    (mkPendingBoxcar 0%nat (js "D") [text 80 97] 80 (js "T"))).
      * reflexivity.
      * vm_compute. reflexivity.
      * vm_compute. reflexivity.
      * vm_compute. reflexivity.
Defined.

(** C3.  Take any run of a producer and any stream key.  The contents of
    the records produced for that key, concatenated in the order of the
    produce calls and followed by the messages still pending in the queue
    of the key in queue order, are the messages of the accepted [send]
    calls for that key in the order of the calls; after a flush the
    produced records alone list them all in that order. *)
Theorem C3_submission_order_preserved :
  forall endpoint tp (maxSize : spec_float) clk evs key,
    flushedFor key (run (constructor endpoint tp maxSize clk) evs)
    ++ pendingFor key (run (constructor endpoint tp maxSize clk) evs)
    = acceptedFor (effectiveLimit maxSize) key evs
    /\ flushedFor key (sendPendingMessages (run (constructor endpoint tp maxSize clk) evs))
       = acceptedFor (effectiveLimit maxSize) key evs.
Proof.
  intros endpoint tp maxSize clk evs key.
  pose proof (delivered_run key evs (constructor endpoint tp maxSize clk)
                            (Inv_constructor _ _ _ _)) as H.
  unfold delivered in H. split.
  - exact H.
  - rewrite flushedFor_sendPendingMessages; [exact H|].
    apply Inv_run, Inv_constructor.
Qed.

(** C4.  A flush makes one produce call for every pending boxcar, going
    through the map key by key and through each queue from its first
    boxcar to its last.  The call for a boxcar goes to the topic of the
    producer with no partition, its payload is the serialized object with
    the contents, document, tenant and type "boxcar", its routing key is
    the document of the boxcar and its opaque token the completion handle
    of the boxcar.  After the calls the map of queues is empty and the
    pending-message counter is zero. *)
Theorem C4_flush_produces_each_boxcar :
  forall s,
    exists calls,
      producer (sendPendingMessages s) = producer s ++ calls
      /\ map (fun c => (pc_topic c, pc_partition c, pc_message c, pc_key c, pc_opaque c))
             calls
         = map (fun b =>
                  (topic s, None,
                   Buffer_from
                     (JSON_stringify
                        {| bm_contents := bc_messages b;
                           bm_documentId := bc_documentId b;
                           bm_tenantId := bc_tenantId b;
                           bm_type := js "boxcar" |}),
                   bc_documentId b, bc_deferred b))
               (List.concat (map snd (messages s)))
      /\ map pc_timestamp calls
         = map (clock s) (seq (ticks s) (List.length (List.concat (map snd (messages s)))))
      /\ messages (sendPendingMessages s) = []
      /\ pendingMessageCount (sendPendingMessages s) = 0.
Proof.
  intros s. exists (flushCalls (topic s) (clock s) (ticks s) (allBoxcars s)).
  rewrite sendPendingMessages_eq. cbn [producer messages pendingMessageCount].
  repeat split.
  - unfold allBoxcars. generalize (ticks s) as t.
    induction (List.concat (map snd (messages s))) as [|b bs IH]; intros t; simpl;
      [reflexivity | now rewrite IH].
  - unfold allBoxcars. generalize (ticks s) as t.
    induction (List.concat (map snd (messages s))) as [|b bs IH]; intros t; simpl;
      [reflexivity | now rewrite IH].
Qed.

(** C5.  Let a [send] pass the size check.  If the queue of its key is
    empty, or the size of the tail boxcar plus the length of the message
    exceeds the effective limit, a new boxcar holding the message is
    appended to the queue, with the handle of a newly allocated [Deferred]
    that no pending boxcar and no produced record of a reachable state
    carries.  If the queue has a tail boxcar that the message fits, the
    message is added to that tail and no boxcar is created.  With an
    effective limit of 100, three messages of length 40 sent to one key of
    an empty producer give the boxcars [[m1; m2]] of size 80 and [[m3]] of
    size 40, and the flush produces two records with these contents. *)
Theorem C5_new_boxcar_when_needed :
  (forall s m t d,
      num_ge (ofZ (strlen m)) (maxMessageSize s) = false ->
      (queueOf (streamKey t d) s = []
       \/ (exists q0 tail,
              queueOf (streamKey t d) s = q0 ++ [tail]
              /\ num_gt (ofZ (bc_size tail + strlen m)) (maxMessageSize s) = true)) ->
      send m t d s
      = (Promise_of (List.length (heap s)),
         requestSend
           (acceptedState (streamKey t d)
              (queueOf (streamKey t d) s
               ++ [mkPendingBoxcar (List.length (heap s)) d [m] (strlen m) t])
              (heap s ++ [Pending]) s)))
  /\ (forall s m t d q0 tail,
         num_ge (ofZ (strlen m)) (maxMessageSize s) = false ->
         queueOf (streamKey t d) s = q0 ++ [tail] ->
         num_gt (ofZ (bc_size tail + strlen m)) (maxMessageSize s) = false ->
         send m t d s
         = (Promise_of (bc_deferred tail),
            requestSend
              (acceptedState (streamKey t d) (q0 ++ [addMessage m tail]) (heap s) s)))
  /\ (forall s, reachable s -> ~ In (List.length (heap s)) (usedHandles s))
  /\ (forall s m1 m2 m3 t d,
         isNumber (maxMessageSize s) 100 ->
         messages s = [] ->
         pendingMessageCount s = 0 ->
         strlen m1 = 40 -> strlen m2 = 40 -> strlen m3 = 40 ->
         messages (run s [EvSend m1 t d; EvSend m2 t d; EvSend m3 t d])
         = [(streamKey t d,
             [mkPendingBoxcar (List.length (heap s)) d [m1; m2] 80 t;
              mkPendingBoxcar (S (List.length (heap s))) d [m3] 40 t])]
         /\ exists c1 c2,
             producer (sendPendingMessages
                         (run s [EvSend m1 t d; EvSend m2 t d; EvSend m3 t d]))
             = producer s ++ [c1; c2]
             /\ recordContents c1 = [m1; m2]
             /\ recordContents c2 = [m3]).
Proof.
  split; [|split; [|split]].
  - intros s m t d Hsz Hcond.
    apply send_new; [exact Hsz|].
    destruct Hcond as [-> | (q0 & tail & -> & Hover)]; [reflexivity|].
    rewrite needsNewBoxcar_snoc. exact Hover.
  - intros s m t d q0 tail Hsz E Hfit.
    destruct (send_join m t d s) as (q1 & tail1 & E1 & _ & ->).
    + exact Hsz.
    + rewrite E, needsNewBoxcar_snoc. exact Hfit.
    + rewrite E in E1. apply app_inj_tail in E1 as [<- <-]. reflexivity.
  - intros s Hr Hin. destruct (reachable_Linked s Hr) as (log & [_ H2 _ _ _]).
    rewrite Forall_forall in H2. apply H2 in Hin. lia.
  - intros s m1 m2 m3 t d Hlim Hm Hc L1 L2 L3.
    destruct (three_messages_two_boxcars s m1 m2 m3 t d Hlim Hm Hc L1 L2 L3)
      as [HM HP].
    split; [exact HM|].
    rewrite sendPendingMessages_eq. cbn [producer]. unfold allBoxcars.
    rewrite HM, HP. cbn. do 2 eexists. repeat split.
Qed.

Lemma C5_witness :
  messages (run exampleProducer100
                [EvSend (text 40 97) (js "T") (js "D");
                 EvSend (text 40 98) (js "T") (js "D");
                 EvSend (text 40 99) (js "T") (js "D")])
  = [(streamKey (js "T") (js "D"),
      [mkPendingBoxcar 0%nat (js "D") [text 40 97; text 40 98] 80 (js "T");
       mkPendingBoxcar 1%nat (js "D") [text 40 99] 40 (js "T")])]
  /\ send (text 40 98) (js "T") (js "D") exampleProducer100
     = (Promise_of 0%nat,
        requestSend
          (acceptedState (streamKey (js "T") (js "D"))
             [mkPendingBoxcar 0%nat (js "D") [text 40 98] 40 (js "T")]
             [Pending] exampleProducer100)).
Proof.
  destruct C5_new_boxcar_when_needed as (Hnew & _ & _ & Hscenario).
  split.
  - apply (Hscenario exampleProducer100 (text 40 97) (text 40 98) (text 40 99)
                     (js "T") (js "D")); vm_compute; reflexivity.
  - apply (Hnew exampleProducer100 (text 40 98) (js "T") (js "D")).
    + vm_compute. reflexivity.
    + left. reflexivity.
Defined.

(** C6.  The delivery-report handler rejects the handle named by the
    report with the error of the report when there is one, and resolves it
    otherwise; on a pending handle the outcome is that rejection when and
    only when the report carries an error, and no other handle changes.
    And in every run, the messages of a pending boxcar, and the contents of
    a produced record, are exactly the messages whose [send] returned the
    promise of the handle of that boxcar or record, while distinct boxcars
    and records have distinct handles: the callers of the messages of one
    boxcar all hold the one handle that a report settles, so they are
    fulfilled together or rejected together. *)
Theorem C6_boxcar_settles_as_one :
  (forall err report s,
      onDeliveryReport err report s
      = set_heap (settle (opaque report)
                         (match err with Some e => Rejected e | None => Fulfilled end)
                         (heap s)) s)
  /\ (forall err report s,
         (opaque report < List.length (heap s))%nat ->
         promiseState (heap s) (opaque report) = Pending ->
         (forall e, promiseState (heap (onDeliveryReport err report s)) (opaque report)
                    = Rejected e <-> err = Some e)
         /\ (promiseState (heap (onDeliveryReport err report s)) (opaque report)
             = Fulfilled <-> err = None)
         /\ forall h, h <> opaque report ->
                      promiseState (heap (onDeliveryReport err report s)) h
                      = promiseState (heap s) h)
  /\ (forall endpoint tp maxSize clk evs,
         NoDup (usedHandles (run (constructor endpoint tp maxSize clk) evs))
         /\ Forall (fun b =>
                      bc_messages b
                      = holders (sendLog (constructor endpoint tp maxSize clk) evs)
                                (bc_deferred b))
                   (allBoxcars (run (constructor endpoint tp maxSize clk) evs))
         /\ Forall (fun c =>
                      recordContents c
                      = holders (sendLog (constructor endpoint tp maxSize clk) evs)
                                (pc_opaque c))
                   (producer (run (constructor endpoint tp maxSize clk) evs))).
Proof.
  split; [|split].
  - intros [e|] report s; reflexivity.
  - intros err report s Hd Hp.
    assert (Hs : promiseState (heap (onDeliveryReport err report s)) (opaque report)
                 = match err with Some e => Rejected e | None => Fulfilled end).
    { destruct err; cbn; now apply promiseState_settle_same. }
    repeat split.
    + rewrite Hs. destruct err; congruence.
    + intros ->. exact Hs.
    + rewrite Hs. destruct err; congruence.
    + intros ->. exact Hs.
    + intros h Hne. destruct err; cbn; now apply promiseState_settle_other.
  - intros endpoint tp maxSize clk evs.
    destruct (Linked_run evs _ [] (Linked_constructor endpoint tp maxSize clk))
      as [H1 _ _ H4 H5].
    auto.
Qed.

Lemma C6_witness :
  promiseState
    (heap (onDeliveryReport
             (Some 7) (mkDeliveryReport 0%nat)
             (run exampleProducer
                  [EvConnect None [];
                   EvSend (text 80 97) (js "T") (js "D");
                   EvSend (text 60 98) (js "T") (js "D");
                   EvSend (text 40 99) (js "T") (js "D");
                   EvImmediate])))
    0%nat
  = Rejected 7
  /\ holders (sendLog exampleProducer
                      [EvConnect None [];
                       EvSend (text 80 97) (js "T") (js "D");
                       EvSend (text 60 98) (js "T") (js "D");
                       EvSend (text 40 99) (js "T") (js "D");
                       EvImmediate])
             0%nat
     = [text 80 97; text 60 98].
Proof.
  destruct C6_boxcar_settles_as_one as (_ & Hsettle & _).
  split; [|reflexivity].
  destruct (Hsettle (Some 7) (mkDeliveryReport 0%nat)
                    (run exampleProducer
                         [EvConnect None [];
                          EvSend (text 80 97) (js "T") (js "D");
                          EvSend (text 60 98) (js "T") (js "D");
                          EvSend (text 40 99) (js "T") (js "D");
                          EvImmediate]))
    as (Hrej & _ & _).
  - vm_compute. lia.
  - reflexivity.
  - apply Hrej. reflexivity.
Defined.

(** C7.  In every reachable state at most one deferred flush is queued,
    and one is queued exactly when [sendPending] holds its handle.  When
    the producer is connected, the counter is below the maximum batch size
    and a flush is already scheduled, [requestSend] leaves the state as it
    is.  Hence any number of [send] calls made in a row to a connected
    producer, the counter staying below the maximum batch size, run no
    flush and leave at most one queued; when at least one of them is
    accepted exactly one is queued, and running it produces every pending
    boxcar, empties the queues and leaves nothing scheduled. *)
Theorem C7_flush_coalescing :
  (forall s, reachable s ->
      (List.length (immediateQueue s) <= 1)%nat
      /\ immediateQueue s = match sendPending s with Some i => [i] | None => [] end)
  /\ (forall s i,
         connected s = true ->
         pendingMessageCount s < MaxBatchSize ->
         sendPending s = Some i ->
         requestSend s = s)
  /\ (forall s sends,
         reachable s ->
         connected s = true ->
         pendingMessageCount s + Z.of_nat (List.length sends) < MaxBatchSize ->
         producer (run s (sendAll sends)) = producer s
         /\ (List.length (immediateQueue (run s (sendAll sends))) <= 1)%nat
         /\ (Exists (fun x => num_ge (ofZ (strlen (fst (fst x)))) (maxMessageSize s) = false)
                    sends ->
             exists i,
               immediateQueue (run s (sendAll sends)) = [i]
               /\ sendPending (run s (sendAll sends)) = Some i
               /\ immediateQueue (runImmediate (run s (sendAll sends))) = []
               /\ sendPending (runImmediate (run s (sendAll sends))) = None
               /\ messages (runImmediate (run s (sendAll sends))) = []
               /\ producer (runImmediate (run s (sendAll sends)))
                  = producer s
                    ++ flushCalls (topic s) (clock s) (ticks s)
                                  (allBoxcars (run s (sendAll sends))))).
Proof.
  assert (Hone : forall s, Inv s ->
             (List.length (immediateQueue s) <= 1)%nat
             /\ immediateQueue s = match sendPending s with Some i => [i] | None => [] end).
  { intros s [_ _ _ Hs]. split; [|exact Hs].
    rewrite Hs. destruct (sendPending s); simpl; lia. }
  split; [|split].
  - intros s Hr. apply Hone. now apply reachable_Inv.
  - intros s i Hc Hb Hp. rewrite requestSend_below by assumption.
    now rewrite Hc, Hp.
  - intros s sends Hr Hc Hb. apply reachable_Inv in Hr.
    destruct (sends_coalesce sends s Hr Hc Hb) as (HP & HT & _ & HA).
    pose proof (Inv_run (sendAll sends) s Hr) as HI.
    destruct (Hone _ HI) as [Hle Hq].
    split; [exact HP|]. split; [exact Hle|].
    intros Hex. specialize (HA Hex).
    destruct (sendPending (run s (sendAll sends))) as [i|] eqn:E; [|congruence].
    exists i. split; [exact Hq|]. split; [reflexivity|].
    destruct (sameConfig_run (sendAll sends) s) as (_ & Htp & Hclk).
    unfold runImmediate. rewrite Hq, sendPendingMessages_eq. cbn.
    rewrite HP, HT, Htp, Hclk. repeat split.
Qed.

Lemma C7_witness :
  requestSend (run exampleProducer [EvConnect None []; EvSend (text 10 97) (js "T") (js "D")])
  = run exampleProducer [EvConnect None []; EvSend (text 10 97) (js "T") (js "D")]
  /\ (List.length
        (immediateQueue
           (run (run exampleProducer [EvConnect None []])
                (sendAll [(text 10 97, js "T", js "D");
                          (text 20 98, js "T", js "D");
                          (text 30 99, js "U", js "E")]))) <= 1)%nat.
Proof.
  destruct C7_flush_coalescing as (_ & Hnoop & Hmany).
  split.
  - apply (Hnoop _ 0%nat); vm_compute; reflexivity.
  - apply (Hmany (run exampleProducer [EvConnect None []])
                 [(text 10 97, js "T", js "D");
                  (text 20 98, js "T", js "D");
                  (text 30 99, js "U", js "E")]).
    + exists (js "kafka:9092"), (js "rawdeltas"), (double 200), exampleClock,
             [EvConnect None []].
      reflexivity.
    + reflexivity.
    + vm_compute. reflexivity.
Defined.

(** C8.  The stream key is the tenant, a slash and the document, and
    distinct pairs can give one key: ("a/b", "c") and ("a", "b/c") both
    give "a/b/c".  A message sent for the first pair and then a message
    sent for the second wait in the same queue, in one boxcar, and the
    record produced for it names only the tenant "a/b" and the document
    "c" and is routed by "c". *)
Theorem C8_stream_key_not_injective :
  (forall t d, streamKey t d = t ++ js "/" ++ d)
  /\ (js "a/b", js "c") <> (js "a", js "b/c")
  /\ streamKey (js "a/b") (js "c") = streamKey (js "a") (js "b/c")
  /\ messages (run exampleProducer
                   [EvConnect None [];
                    EvSend (text 10 97) (js "a/b") (js "c");
                    EvSend (text 20 98) (js "a") (js "b/c")])
     = [(js "a/b/c",
         [mkPendingBoxcar 0%nat (js "c") [text 10 97; text 20 98] 30 (js "a/b")])]
  /\ map (fun c => (payloadMessage (pc_message c), pc_key c))
         (producer (run exampleProducer
                        [EvConnect None [];
                         EvSend (text 10 97) (js "a/b") (js "c");
                         EvSend (text 20 98) (js "a") (js "b/c");
                         EvImmediate]))
     = [({| bm_contents := [text 10 97; text 20 98];
            bm_documentId := js "c";
            bm_tenantId := js "a/b";
            bm_type := js "boxcar" |},
         js "c")].
Proof.
  split; [reflexivity|]. split; [discriminate|].
  repeat split; vm_compute; reflexivity.
Qed.

(** C9.  In every reachable state the pending-message counter is the
    number of messages in all boxcars of all queues, every boxcar in a
    queue holds at least one message, and the size of every boxcar is the
    sum of the lengths of its messages.  [send] keeps these facts true,
    whatever it is given, and so does the flush. *)
Theorem C9_counter_and_sizes :
  (forall s, reachable s ->
      pendingMessageCount s = totalMessages (allBoxcars s)
      /\ Forall (fun b => bc_messages b <> []
                          /\ bc_size b = sumLengths (bc_messages b))
                (allBoxcars s))
  /\ (forall s m t d, counted s -> counted (snd (send m t d s)))
  /\ (forall s, counted s -> counted (sendPendingMessages s)).
Proof.
  split; [|split].
  - intros s Hr. apply Inv_counted, reachable_Inv, Hr.
  - intros s m t d. apply counted_send.
  - intros s _. apply counted_sendPendingMessages.
Qed.

Lemma C9_witness :
  pendingMessageCount
    (run exampleProducer
         [EvSend (text 80 97) (js "T") (js "D");
          EvSend (text 80 98) (js "T") (js "D");
          EvSend (text 30 99) (js "U") (js "E")])
  = 3
  /\ counted (snd (send (text 5 100) (js "T") (js "D") exampleProducer)).
Proof.
  destruct C9_counter_and_sizes as (Hreach & Hsend & _).
  split.
  - destruct (Hreach (run exampleProducer
                          [EvSend (text 80 97) (js "T") (js "D");
                           EvSend (text 80 98) (js "T") (js "D");
                           EvSend (text 30 99) (js "U") (js "E")]))
      as [Hcount _].
    + exists (js "kafka:9092"), (js "rawdeltas"), (double 200), exampleClock,
             [EvSend (text 80 97) (js "T") (js "D");
              EvSend (text 80 98) (js "T") (js "D");
              EvSend (text 30 99) (js "U") (js "E")].
      reflexivity.
    + rewrite Hcount. reflexivity.
  - apply Hsend. split; [reflexivity | constructor].
Defined.

(** C10.  Whatever error and data the connect callback is given, it sets
    [connected] and calls [requestSend]: the outcome does not depend on
    the error, the producer is connected afterwards also when the attempt
    reported one, and a deferred flush is scheduled if none was and the
    counter is below the maximum batch size. *)
Theorem C10_connect_callback_ignores_error :
  forall (error : option KafkaError) (data : Metadata) (s : State),
    onConnect error data s = requestSend (set_connected true s)
    /\ connected (onConnect error data s) = true
    /\ onConnect error data s = onConnect None data s
    /\ (sendPending s = None ->
        pendingMessageCount s < MaxBatchSize ->
        sendPending (onConnect error data s) = Some (nextImmediate s)
        /\ immediateQueue (onConnect error data s)
           = immediateQueue s ++ [nextImmediate s]).
Proof.
  intros error data s. unfold onConnect.
  split; [reflexivity|]. split; [now rewrite connected_requestSend|].
  split; [reflexivity|].
  intros Hp Hb. rewrite requestSend_below by exact Hb. cbn. rewrite Hp.
  split; reflexivity.
Qed.

Lemma C10_witness :
  connected (onConnect (Some 111) []
                       (run exampleProducer [EvSend (text 10 97) (js "T") (js "D")]))
  = true
  /\ sendPending (onConnect (Some 111) []
                            (run exampleProducer [EvSend (text 10 97) (js "T") (js "D")]))
     = Some 0%nat.
Proof.
  destruct (C10_connect_callback_ignores_error
              (Some 111) []
              (run exampleProducer [EvSend (text 10 97) (js "T") (js "D")]))
    as (_ & Hc & _ & Hs).
  split; [exact Hc|].
  destruct Hs as [Hs _]; [reflexivity | vm_compute; reflexivity | exact Hs].
Defined.

(** * Further properties of the producer *)

(** A code unit is absent from a string when comparing it with every code
    unit of the string fails. *)
Lemma absent_by_comparison (c : N) (s : JsString) :
  forallb (fun x => negb (N.eqb x c)) s = true -> ~ In c s.
Proof.
  intros H Hin. rewrite forallb_forall in H. specialize (H c Hin).
  now rewrite N.eqb_refl in H.
Qed.

Lemma heap_requestSend s : heap (requestSend s) = heap s.
Proof.
  unfold requestSend.
  destruct (connected s); simpl negb; cbv iota; [|reflexivity].
  destruct (MaxBatchSize <=? pendingMessageCount s).
  - rewrite sendPendingMessages_eq. cbn. destruct (sendPending s); reflexivity.
  - destruct (sendPending s); reflexivity.
Qed.

Lemma allBoxcars_OK s :
  Inv s -> Forall (fun b => exists key, boxcarOK (maxMessageSize s) key b) (allBoxcars s).
Proof.
  intros [_ Hb _ _]. unfold allBoxcars.
  induction Hb as [|[k q] ms Hq _ IH]; simpl; [constructor|].
  apply Forall_app; split; [|exact IH].
  eapply Forall_impl; [|exact Hq]. intros b H. now exists k.
Qed.

Lemma flushesOrNot_flush s : Inv s -> flushesOrNot s (sendPendingMessages s).
Proof.
  intros H. right. exists (allBoxcars s). rewrite sendPendingMessages_eq. cbn.
  split; [now apply allBoxcars_OK | split; reflexivity].
Qed.

Lemma flushesOrNot_ext s0 s s' :
  producer s0 = producer s -> ticks s0 = ticks s -> topic s0 = topic s ->
  clock s0 = clock s -> maxMessageSize s0 = maxMessageSize s ->
  flushesOrNot s0 s' -> flushesOrNot s s'.
Proof.
  unfold flushesOrNot. intros -> -> -> -> ->. auto.
Qed.

Lemma flushesOrNot_requestSend s : Inv s -> flushesOrNot s (requestSend s).
Proof.
  intros H. unfold requestSend.
  destruct (connected s); simpl negb; cbv iota; [|left; auto].
  destruct (MaxBatchSize <=? pendingMessageCount s).
  - apply flushesOrNot_ext
      with (s0 := set_sendPending None (clearImmediate (sendPending s) s));
      try (destruct (sendPending s); reflexivity).
    apply flushesOrNot_flush.
    destruct H as [Hk Hb Hc Hs].
    destruct (sendPending s) as [i|]; split; cbn in *; auto.
    rewrite Hs. simpl. now rewrite Nat.eqb_refl.
  - destruct (sendPending s); left; auto.
Qed.

Lemma flushesOrNot_step s ev : Inv s -> flushesOrNot s (step s ev).
Proof.
  intros H. destruct ev as [m t d| e data | | e r |]; simpl.
  - destruct (num_ge (ofZ (strlen m)) (maxMessageSize s)) eqn:Hsz.
    + rewrite send_oversized by assumption. left; auto.
    + destruct (send_accepts m t d s Hsz) as (q' & hp & h & Ha & ->). cbn [snd].
      apply flushesOrNot_ext with (s0 := acceptedState (streamKey t d) q' hp s);
        try reflexivity.
      apply flushesOrNot_requestSend. eapply Accepts_Inv; eassumption.
  - unfold onConnect.
    apply flushesOrNot_ext with (s0 := set_connected true s); try reflexivity.
    apply flushesOrNot_requestSend. destruct H as [Hk Hb Hc Hs]. split; auto.
  - unfold runImmediate. destruct (immediateQueue s) as [|i q]; [left; auto|].
    right. exists (allBoxcars s). rewrite sendPendingMessages_eq. cbn.
    split; [now apply allBoxcars_OK | split; reflexivity].
  - destruct e; left; auto.
  - now apply flushesOrNot_flush.
Qed.

Lemma flushCalls_recordOK tp clk t limit bs :
  Forall (fun b => exists key, boxcarOK limit key b) bs ->
  Forall (recordOK tp limit) (flushCalls tp clk t bs).
Proof.
  intros H. revert t. induction H as [|b bs (key & Hne & Hsz & Hle & _) _ IH];
    intros t; simpl; constructor; auto.
  unfold recordOK, recordContents.
  cbn [pc_topic pc_partition pc_message pc_key payloadMessage bm_type
       bm_documentId bm_contents boxcarMessage].
  rewrite <- Hsz. repeat split; auto.
  intros Hnum. now apply num_gt_false_le.
Qed.

Lemma recordOK_run evs s :
  Inv s ->
  Forall (recordOK (topic s) (maxMessageSize s)) (producer s) ->
  Forall (recordOK (topic s) (maxMessageSize s)) (producer (run s evs)).
Proof.
  revert s; induction evs as [|ev evs IH]; intros s HI H; [exact H|].
  change (run s (ev :: evs)) with (run (step s ev) evs).
  destruct (sameConfig_step s ev) as (Hm & Ht & _).
  rewrite <- Hm, <- Ht. apply IH; [now apply Inv_step|].
  rewrite Hm, Ht.
  destruct (flushesOrNot_step s ev HI) as [[-> _] | (bs & Hbs & -> & _)]; [exact H|].
  apply Forall_app; split; [exact H|]. now apply flushCalls_recordOK.
Qed.

Lemma flushCalls_length tp clk t bs :
  List.length (flushCalls tp clk t bs) = List.length bs.
Proof. revert t; induction bs; intros; simpl; auto. Qed.

Lemma flushCalls_timestamps tp clk t bs :
  map pc_timestamp (flushCalls tp clk t bs) = map clk (seq t (List.length bs)).
Proof.
  revert t; induction bs as [|b bs IH]; intros t; simpl; [reflexivity|].
  now rewrite IH.
Qed.

Lemma timestamps_run evs s :
  Inv s ->
  ticks s = List.length (producer s) ->
  map pc_timestamp (producer s) = map (clock s) (seq 0 (ticks s)) ->
  ticks (run s evs) = List.length (producer (run s evs))
  /\ map pc_timestamp (producer (run s evs))
     = map (clock s) (seq 0 (ticks (run s evs))).
Proof.
  revert s; induction evs as [|ev evs IH]; intros s HI Ht Hm; [auto|].
  change (run s (ev :: evs)) with (run (step s ev) evs).
  destruct (sameConfig_step s ev) as (_ & _ & Hc).
  rewrite <- Hc. apply IH; [now apply Inv_step | |]; rewrite ?Hc;
    destruct (flushesOrNot_step s ev HI) as [[-> ->] | (bs & _ & -> & ->)]; auto.
  - rewrite length_app, flushCalls_length. congruence.
  - rewrite map_app, flushCalls_timestamps, seq_app, map_app. simpl. congruence.
Qed.

(** X1.  Every record the producer hands to the Kafka client goes to the
    configured topic with no partition, is a boxcar routed by the
    document it names and holds at least one message; and, unless the
    effective size limit (the product of the configured double with
    [0.75]) is NaN, the lengths of its messages add up to at most that
    limit. *)
Theorem X1_produced_records_well_formed :
  forall endpoint tp (maxSize : spec_float) clk evs,
    Forall (recordOK tp (effectiveLimit maxSize))
           (producer (run (constructor endpoint tp maxSize clk) evs)).
Proof.
  intros endpoint tp maxSize clk evs.
  apply (recordOK_run evs (constructor endpoint tp maxSize clk)).
  - apply Inv_constructor.
  - constructor.
Qed.

Lemma X1_witness :
  Forall (fun c => js_le (ofZ (sumLengths (recordContents c))) (Num 150) = true)
         (producer (run exampleProducer
                        [EvConnect None [];
                         EvSend (text 100 97) (js "T") (js "D");
                         EvSend (text 100 98) (js "T") (js "D");
                         EvImmediate])).
Proof.
  eapply Forall_impl;
    [|exact (X1_produced_records_well_formed
               (js "kafka:9092") (js "rawdeltas") (double 200) exampleClock
               [EvConnect None [];
                EvSend (text 100 97) (js "T") (js "D");
                EvSend (text 100 98) (js "T") (js "D");
                EvImmediate])].
  intros c (_ & _ & _ & _ & _ & Hle).
  change (Num 150) with (effectiveLimit (double 200)).
  apply Hle. vm_compute. discriminate.
Defined.

Lemma nth_clock_readings clk n i :
  (i < n)%nat -> nth i (map clk (seq 0 n)) 0 = clk i.
Proof.
  intros H. rewrite (nth_indep _ 0 (clk O)) by now rewrite length_map, length_seq.
  rewrite map_nth, seq_nth by assumption. reflexivity.
Qed.

(** X2.  The clock is read once for every produce call and by nothing
    else: the timestamps of the produced records are, in produce order,
    the successive readings of the clock.  With a clock that never goes
    back, the timestamps never decrease along the log. *)
Theorem X2_timestamps_follow_the_clock :
  forall endpoint tp (maxSize : spec_float) clk evs,
    let s := run (constructor endpoint tp maxSize clk) evs in
    ticks s = List.length (producer s)
    /\ map pc_timestamp (producer s) = map clk (seq 0 (List.length (producer s)))
    /\ ((forall i j, (i <= j)%nat -> clk i <= clk j) ->
        forall i j, (i <= j < List.length (producer s))%nat ->
                    nth i (map pc_timestamp (producer s)) 0
                    <= nth j (map pc_timestamp (producer s)) 0).
Proof.
  intros endpoint tp maxSize clk evs s.
  destruct (timestamps_run evs (constructor endpoint tp maxSize clk))
    as [Ht Hm]; [apply Inv_constructor | reflexivity | reflexivity |].
  fold s in Ht, Hm. cbn [clock constructor] in Hm. rewrite Ht in Hm.
  split; [exact Ht|]. split; [exact Hm|].
  intros Hmono i j Hij. rewrite Hm, !nth_clock_readings by lia.
  apply Hmono. lia.
Qed.

Lemma X2_witness :
  nth 0 (map pc_timestamp
             (producer (run exampleProducer
                            [EvConnect None [];
                             EvSend (text 100 97) (js "T") (js "D");
                             EvSend (text 100 98) (js "T") (js "D");
                             EvImmediate]))) 0
  <= nth 1 (map pc_timestamp
                (producer (run exampleProducer
                               [EvConnect None [];
                                EvSend (text 100 97) (js "T") (js "D");
                                EvSend (text 100 98) (js "T") (js "D");
                                EvImmediate]))) 0.
Proof.
  destruct (X2_timestamps_follow_the_clock
              (js "kafka:9092") (js "rawdeltas") (double 200) exampleClock
              [EvConnect None [];
               EvSend (text 100 97) (js "T") (js "D");
               EvSend (text 100 98) (js "T") (js "D");
               EvImmediate]) as (_ & _ & Hmono).
  apply Hmono.
  - intros i j Hij. unfold exampleClock. lia.
  - vm_compute. lia.
Defined.

Lemma totalMessages_nonneg bs : 0 <= totalMessages bs.
Proof. induction bs; simpl; lia. Qed.

Lemma count_requestSend s :
  pendingMessageCount (requestSend s) = pendingMessageCount s
  \/ pendingMessageCount (requestSend s) = 0.
Proof.
  unfold requestSend.
  destruct (connected s); simpl negb; cbv iota; [|now left].
  destruct (MaxBatchSize <=? pendingMessageCount s).
  - right. now rewrite sendPendingMessages_eq.
  - destruct (sendPending s); now left.
Qed.

Lemma count_step s ev :
  counted s ->
  0 <= pendingMessageCount (step s ev)
  <= pendingMessageCount s + Z.of_nat (sendCount [ev]).
Proof.
  intros Hc.
  assert (H0 : 0 <= pendingMessageCount s).
  { destruct Hc as [-> _]. apply totalMessages_nonneg. }
  destruct ev as [m t d| e data | | e r |]; cbn [step]; unfold sendCount;
    cbn [filter List.length].
  - destruct (num_ge (ofZ (strlen m)) (maxMessageSize s)) eqn:Hsz.
    + rewrite send_oversized by assumption. simpl. lia.
    + destruct (send_accepts m t d s Hsz) as (q' & hp & h & _ & ->). cbn [snd].
      destruct (count_requestSend (acceptedState (streamKey t d) q' hp s))
        as [-> | ->]; cbn; lia.
  - unfold onConnect.
    destruct (count_requestSend (set_connected true s)) as [-> | ->]; cbn; lia.
  - unfold runImmediate. destruct (immediateQueue s); [lia|].
    rewrite sendPendingMessages_eq. cbn. lia.
  - destruct e; cbn; lia.
  - rewrite sendPendingMessages_eq. cbn. lia.
Qed.

Lemma counted_step s ev : counted s -> counted (step s ev).
Proof.
  intros H. destruct ev as [m t d| e data | | e r |]; simpl.
  - now apply counted_send.
  - unfold onConnect. apply counted_requestSend.
    eapply counted_ext; [| |exact H]; reflexivity.
  - unfold runImmediate. destruct (immediateQueue s); [exact H|].
    eapply counted_ext with (s := sendPendingMessages s);
      [| |apply counted_sendPendingMessages];
      rewrite !sendPendingMessages_eq; reflexivity.
  - destruct e; (eapply counted_ext; [| |exact H]; reflexivity).
  - apply counted_sendPendingMessages.
Qed.

Lemma sendCount_cons ev evs :
  sendCount (ev :: evs) = (sendCount [ev] + sendCount evs)%nat.
Proof. unfold sendCount. simpl. destruct ev; reflexivity. Qed.

Lemma count_run evs s :
  counted s ->
  0 <= pendingMessageCount (run s evs)
  <= pendingMessageCount s + Z.of_nat (sendCount evs).
Proof.
  revert s; induction evs as [|ev evs IH]; intros s Hc.
  - simpl. unfold sendCount. simpl.
    destruct Hc as [Hc _]. rewrite Hc. pose proof (totalMessages_nonneg (allBoxcars s)). lia.
  - change (run s (ev :: evs)) with (run (step s ev) evs).
    pose proof (count_step s ev Hc). pose proof (IH _ (counted_step s ev Hc)).
    rewrite sendCount_cons, Nat2Z.inj_add. lia.
Qed.

(** X3.  The pending-message counter is never negative and never more
    than the number of [send] calls made so far; so as long as fewer than
    [MaxBatchSize] calls were made, the counter is below the ceiling that
    makes [requestSend] flush at once. *)
Theorem X3_counter_bounded_by_sends :
  forall endpoint tp (maxSize : spec_float) clk evs,
    0 <= pendingMessageCount (run (constructor endpoint tp maxSize clk) evs)
    <= Z.of_nat (sendCount evs)
    /\ (Z.of_nat (sendCount evs) < MaxBatchSize ->
        (MaxBatchSize <=? pendingMessageCount (run (constructor endpoint tp maxSize clk) evs))
        = false).
Proof.
  intros endpoint tp maxSize clk evs.
  pose proof (count_run evs (constructor endpoint tp maxSize clk)) as H.
  cbn [pendingMessageCount constructor] in H.
  assert (Hb : 0 <= pendingMessageCount (run (constructor endpoint tp maxSize clk) evs)
               <= Z.of_nat (sendCount evs)).
  { apply H. split; [reflexivity | constructor]. }
  split; [exact Hb|].
  intros Hlt. apply Z.leb_gt. lia.
Qed.

Lemma X3_witness :
  (MaxBatchSize
   <=? pendingMessageCount
         (run exampleProducer
              [EvSend (text 10 97) (js "T") (js "D");
               EvSend (text 10 98) (js "U") (js "E")]))
  = false.
Proof.
  destruct (X3_counter_bounded_by_sends
              (js "kafka:9092") (js "rawdeltas") (double 200) exampleClock
              [EvSend (text 10 97) (js "T") (js "D");
               EvSend (text 10 98) (js "U") (js "E")]) as [_ H].
  apply H. vm_compute. reflexivity.
Defined.

(** ** Queues are never empty *)

Lemma messages_requestSend s :
  messages (requestSend s) = messages s \/ messages (requestSend s) = [].
Proof.
  unfold requestSend.
  destruct (connected s); simpl negb; cbv iota; [|now left].
  destruct (MaxBatchSize <=? pendingMessageCount s).
  - right. now rewrite sendPendingMessages_eq.
  - destruct (sendPending s); now left.
Qed.

Lemma nonEmptyQueues_step s ev :
  Forall (fun e => snd e <> []) (messages s) ->
  Forall (fun e => snd e <> []) (messages (step s ev)).
Proof.
  intros H. destruct ev as [m t d| e data | | e r |]; cbn [step].
  - destruct (num_ge (ofZ (strlen m)) (maxMessageSize s)) eqn:Hsz.
    + now rewrite send_oversized.
    + destruct (send_accepts m t d s Hsz) as (q' & hp & h & Ha & ->). cbn [snd].
      destruct (messages_requestSend (acceptedState (streamKey t d) q' hp s))
        as [-> | ->]; [|constructor].
      cbn. apply Forall_Map_set; [exact H|]. cbn.
      destruct Ha as [_ | q0 tail _ _].
      * destruct (queueOf (streamKey t d) s); discriminate.
      * destruct q0; discriminate.
  - unfold onConnect.
    destruct (messages_requestSend (set_connected true s)) as [-> | ->];
      [exact H | constructor].
  - unfold runImmediate. destruct (immediateQueue s); [exact H|].
    rewrite sendPendingMessages_eq. constructor.
  - destruct e; exact H.
  - rewrite sendPendingMessages_eq. constructor.
Qed.

Lemma nonEmptyQueues_run evs s :
  Forall (fun e => snd e <> []) (messages s) ->
  Forall (fun e => snd e <> []) (messages (run s evs)).
Proof.
  revert s; induction evs as [|ev evs IH]; intros s H; [exact H|].
  apply IH, nonEmptyQueues_step, H.
Qed.

(** X4.  The map never keeps an empty queue: in every reachable state
    every key of the map has at least one pending boxcar, so a key is in
    the map exactly when messages are waiting for it. *)
Theorem X4_no_empty_queue :
  forall s, reachable s ->
    Forall (fun e => snd e <> []) (messages s)
    /\ forall key, Map_has key (messages s) = true <-> queueOf key s <> [].
Proof.
  intros s (endpoint & tp & maxSize & clk & evs & ->).
  assert (H : Forall (fun e => snd e <> [])
                     (messages (run (constructor endpoint tp maxSize clk) evs))).
  { apply nonEmptyQueues_run. constructor. }
  split; [exact H|].
  intros key. unfold queueOf.
  destruct (Map_get key (messages (run (constructor endpoint tp maxSize clk) evs)))
    as [q|] eqn:E.
  - split.
    + intros _. apply Map_get_In in E. rewrite Forall_forall in H.
      exact (H _ E).
    + intros _. destruct (Map_has key _) eqn:Hh; [reflexivity|].
      apply Map_has_get in Hh. congruence.
  - split; [|congruence].
    intros Hh. apply Map_has_get in E. congruence.
Qed.

Lemma X4_witness :
  Map_has (js "T/D")
          (messages (run exampleProducer [EvSend (text 10 97) (js "T") (js "D")]))
  = true
  <-> queueOf (js "T/D") (run exampleProducer [EvSend (text 10 97) (js "T") (js "D")])
      <> [].
Proof.
  destruct (X4_no_empty_queue
              (run exampleProducer [EvSend (text 10 97) (js "T") (js "D")]))
    as [_ H].
  - exists (js "kafka:9092"), (js "rawdeltas"), (double 200), exampleClock,
           [EvSend (text 10 97) (js "T") (js "D")].
    reflexivity.
  - apply H.
Defined.

(** ** Before and at the connection *)

Lemma requestSend_disconnected s : connected s = false -> requestSend s = s.
Proof. intros H. unfold requestSend. now rewrite H. Qed.

Lemma idle_step s ev :
  beforeConnect [ev] = true -> idle s -> idle (step s ev).
Proof.
  intros Hev (Hc & Hp & Hq & Hs).
  destruct ev as [m t d| e data | | e r |]; cbn [step]; try discriminate.
  - destruct (num_ge (ofZ (strlen m)) (maxMessageSize s)) eqn:Hsz.
    + rewrite send_oversized by assumption. repeat split; assumption.
    + destruct (send_accepts m t d s Hsz) as (q' & hp & h & _ & ->). cbn [snd].
      rewrite requestSend_disconnected by exact Hc. repeat split; assumption.
  - unfold runImmediate. rewrite Hq. repeat split; assumption.
  - destruct e; repeat split; assumption.
Qed.

Lemma idle_run evs s :
  beforeConnect evs = true -> idle s -> idle (run s evs).
Proof.
  revert s; induction evs as [|ev evs IH]; intros s Hev H; [exact H|].
  simpl in Hev. apply andb_true_iff in Hev as [H1 H2].
  apply IH; [exact H2|]. apply idle_step; [|exact H].
  simpl. now rewrite H1.
Qed.

(** X5.  Until the connect callback fires nothing reaches the Kafka
    client and no flush is scheduled, however many messages are sent and
    however often the event loop turns: the producer stays unconnected,
    its log of produce calls stays empty, and every accepted message waits
    in the queue of its key in the order it was sent. *)
Theorem X5_nothing_leaves_before_connect :
  forall endpoint tp (maxSize : spec_float) clk evs,
    beforeConnect evs = true ->
    let s := run (constructor endpoint tp maxSize clk) evs in
    connected s = false
    /\ producer s = []
    /\ immediateQueue s = []
    /\ sendPending s = None
    /\ forall key, pendingFor key s = acceptedFor (effectiveLimit maxSize) key evs.
Proof.
  intros endpoint tp maxSize clk evs Hev s.
  destruct (idle_run evs (constructor endpoint tp maxSize clk) Hev)
    as (Hc & Hp & Hq & Hs); [repeat split|].
  fold s in Hc, Hp, Hq, Hs. repeat split; try assumption.
  intros key.
  pose proof (delivered_run key evs (constructor endpoint tp maxSize clk)
                            (Inv_constructor _ _ _ _)) as H.
  fold s in H. unfold delivered, flushedFor in H. rewrite Hp in H. exact H.
Qed.

Lemma X5_witness :
  producer (run exampleProducer
                [EvSend (text 10 97) (js "T") (js "D");
                 EvImmediate;
                 EvSend (text 10 98) (js "T") (js "D")])
  = []
  /\ pendingFor (js "T/D")
                (run exampleProducer
                     [EvSend (text 10 97) (js "T") (js "D");
                      EvImmediate;
                      EvSend (text 10 98) (js "T") (js "D")])
     = [text 10 97; text 10 98].
Proof.
  destruct (X5_nothing_leaves_before_connect
              (js "kafka:9092") (js "rawdeltas") (double 200) exampleClock
              [EvSend (text 10 97) (js "T") (js "D");
               EvImmediate;
               EvSend (text 10 98) (js "T") (js "D")])
    as (_ & Hp & _ & _ & Hk); [reflexivity|].
  split; [exact Hp|]. rewrite Hk. reflexivity.
Defined.

Lemma connect_then_immediate s e data :
  immediateQueue s = [] ->
  sendPending s = None ->
  connected (run s [EvConnect e data; EvImmediate]) = true
  /\ messages (run s [EvConnect e data; EvImmediate]) = []
  /\ pendingMessageCount (run s [EvConnect e data; EvImmediate]) = 0
  /\ producer (run s [EvConnect e data; EvImmediate])
     = producer s ++ flushCalls (topic s) (clock s) (ticks s) (allBoxcars s)
  /\ immediateQueue (run s [EvConnect e data; EvImmediate]) = []
  /\ sendPending (run s [EvConnect e data; EvImmediate]) = None.
Proof.
  intros Hq Hs. cbn [run fold_left step]. unfold onConnect, requestSend.
  cbn [connected set_connected negb pendingMessageCount sendPending].
  rewrite Hs.
  destruct (MaxBatchSize <=? pendingMessageCount s).
  - unfold runImmediate. rewrite !sendPendingMessages_eq. cbn. rewrite Hq.
    cbn. repeat split; assumption.
  - unfold runImmediate. cbn -[sendPendingMessages]. rewrite Hq.
    cbn -[sendPendingMessages].
    rewrite !sendPendingMessages_eq. cbn. repeat split.
Qed.

(** X6.  The connect callback and the next turn of the event loop empty a
    producer that had nothing scheduled: every pending boxcar is produced,
    in map and queue order, the queues and the counter are cleared and
    nothing stays scheduled, whether the flush ran at once or deferred.
    So all messages accepted before the connection are produced by then,
    key by key in the order they were sent. *)
Theorem X6_connect_flushes_the_backlog :
  (forall s e data,
      immediateQueue s = [] ->
      sendPending s = None ->
      connected (run s [EvConnect e data; EvImmediate]) = true
      /\ messages (run s [EvConnect e data; EvImmediate]) = []
      /\ pendingMessageCount (run s [EvConnect e data; EvImmediate]) = 0
      /\ producer (run s [EvConnect e data; EvImmediate])
         = producer s ++ flushCalls (topic s) (clock s) (ticks s) (allBoxcars s)
      /\ immediateQueue (run s [EvConnect e data; EvImmediate]) = []
      /\ sendPending (run s [EvConnect e data; EvImmediate]) = None)
  /\ (forall endpoint tp (maxSize : spec_float) clk evs e data key,
         beforeConnect evs = true ->
         flushedFor key (run (constructor endpoint tp maxSize clk)
                             (evs ++ [EvConnect e data; EvImmediate]))
         = acceptedFor (effectiveLimit maxSize) key evs).
Proof.
  split; [exact connect_then_immediate|].
  intros endpoint tp maxSize clk evs e data key Hev.
  pose proof (delivered_run key (evs ++ [EvConnect e data; EvImmediate])
                            (constructor endpoint tp maxSize clk)
                            (Inv_constructor _ _ _ _)) as H.
  rewrite acceptedFor_app in H. cbn [acceptedFor flat_map app] in H.
  rewrite !app_nil_r in H. cbn [maxMessageSize constructor] in H.
  change (delivered key (constructor endpoint tp maxSize clk)) with (@nil JsString) in H.
  cbn [app] in H. rewrite <- H. unfold delivered.
  destruct (idle_run evs (constructor endpoint tp maxSize clk) Hev)
    as (_ & _ & Hq & Hs); [repeat split|].
  assert (Hm : messages (run (constructor endpoint tp maxSize clk)
                             (evs ++ [EvConnect e data; EvImmediate])) = []).
  { unfold run. rewrite fold_left_app.
    fold (run (constructor endpoint tp maxSize clk) evs).
    fold (run (run (constructor endpoint tp maxSize clk) evs)
              [EvConnect e data; EvImmediate]).
    now destruct (connect_then_immediate _ e data Hq Hs) as (_ & -> & _). }
  unfold pendingFor, queueOf. rewrite Hm. cbn. now rewrite app_nil_r.
Qed.

Lemma X6_witness :
  flushedFor (js "T/D")
             (run exampleProducer
                  ([EvSend (text 10 97) (js "T") (js "D");
                    EvSend (text 10 98) (js "T") (js "D")]
                   ++ [EvConnect (Some 3) []; EvImmediate]))
  = [text 10 97; text 10 98].
Proof.
  destruct X6_connect_flushes_the_backlog as [_ H].
  etransitivity.
  - apply (H (js "kafka:9092") (js "rawdeltas") (double 200) exampleClock
             [EvSend (text 10 97) (js "T") (js "D");
              EvSend (text 10 98) (js "T") (js "D")]
             (Some 3) [] (js "T/D")).
    reflexivity.
  - reflexivity.
Defined.

(** ** The batch ceiling *)

Lemma filter_neq_notin i q :
  ~ In i (filter (fun j => negb (Nat.eqb j i)) q).
Proof.
  intros H. apply filter_In in H as [_ H].
  now rewrite Nat.eqb_refl in H.
Qed.

(** X7.  When a connected producer has as many pending messages as the
    maximum batch size, [requestSend] does not defer: it cancels the
    scheduled flush, forgets its handle and flushes at once, so that every
    pending boxcar is produced, the queues and the counter are cleared,
    and the cancelled handle is no longer queued.  When that handle was
    the only one queued, the next turn of the event loop changes
    nothing. *)
Theorem X7_flush_at_the_ceiling :
  forall s,
    connected s = true ->
    MaxBatchSize <= pendingMessageCount s ->
    messages (requestSend s) = []
    /\ pendingMessageCount (requestSend s) = 0
    /\ sendPending (requestSend s) = None
    /\ producer (requestSend s)
       = producer s ++ flushCalls (topic s) (clock s) (ticks s) (allBoxcars s)
    /\ (forall i, sendPending s = Some i -> ~ In i (immediateQueue (requestSend s)))
    /\ (immediateQueue s = match sendPending s with Some i => [i] | None => [] end ->
        immediateQueue (requestSend s) = []
        /\ runImmediate (requestSend s) = requestSend s).
Proof.
  intros s Hc Hb. unfold requestSend. rewrite Hc. simpl negb. cbv iota.
  destruct (Z.leb_spec MaxBatchSize (pendingMessageCount s)) as [_|Hlt]; [|lia].
  rewrite sendPendingMessages_eq.
  assert (Hq : immediateQueue s = match sendPending s with Some i => [i] | None => [] end ->
               immediateQueue (clearImmediate (sendPending s) s) = []).
  { intros Hs. destruct (sendPending s) as [i|]; cbn; [|exact Hs].
    rewrite Hs. simpl. now rewrite Nat.eqb_refl. }
  split; [reflexivity|]. split; [reflexivity|]. split; [reflexivity|].
  split; [destruct (sendPending s); reflexivity|].
  split.
  - intros i Hi. rewrite Hi. cbn. apply filter_neq_notin.
  - intros Hs. specialize (Hq Hs). split.
    + cbn. destruct (sendPending s); exact Hq.
    + assert (E : immediateQueue
                    (set_sendPending None (clearImmediate (sendPending s) s)) = [])
        by (destruct (sendPending s); exact Hq).
      unfold runImmediate. cbn [immediateQueue]. now rewrite E.
Qed.

Lemma X7_witness :
  messages (requestSend exampleAtCeiling) = []
  /\ immediateQueue (requestSend exampleAtCeiling) = []
  /\ List.length (producer (requestSend exampleAtCeiling)) = 1%nat.
Proof.
  destruct (X7_flush_at_the_ceiling exampleAtCeiling)
    as (Hm & _ & _ & Hp & _ & Hq).
  - reflexivity.
  - vm_compute. discriminate.
  - split; [exact Hm|]. split.
    + apply Hq. reflexivity.
    + rewrite Hp. reflexivity.
Defined.

(** X8.  A flush with nothing pending makes no produce call and leaves
    the state as it is; hence a second flush right after a flush changes
    nothing. *)
Theorem X8_empty_flush_is_silent :
  (forall s, messages s = [] -> pendingMessageCount s = 0 ->
             sendPendingMessages s = s)
  /\ (forall s, sendPendingMessages (sendPendingMessages s) = sendPendingMessages s).
Proof.
  assert (H : forall s, messages s = [] -> pendingMessageCount s = 0 ->
                        sendPendingMessages s = s).
  { intros s Hm Hc. rewrite sendPendingMessages_eq. unfold allBoxcars.
    rewrite Hm. destruct s. cbn in *. subst.
    now rewrite app_nil_r, Nat.add_0_r. }
  split; [exact H|].
  intros s. apply H; rewrite sendPendingMessages_eq; reflexivity.
Qed.

Lemma X8_witness :
  sendPendingMessages exampleProducer = exampleProducer.
Proof.
  destruct X8_empty_flush_is_silent as [H _].
  apply H; reflexivity.
Defined.

(** ** What [send] returns *)

(** X9.  [send] answers in one of two ways and never fails on the tail of
    the queue: it returns the promise rejected with "Message too large"
    exactly when the test [message.length >= maxMessageSize] holds, and
    otherwise, which includes a limit that is NaN, the promise of a
    completion handle.  In a reachable state
    that handle is one the producer has allocated, and [send] leaves it
    settled or pending as it was. *)
Theorem X9_send_rejects_or_returns_a_handle :
  (forall m t d s,
      (fst (send m t d s) = Promise_reject (js "Message too large")
       <-> num_ge (ofZ (strlen m)) (maxMessageSize s) = true)
      /\ (num_ge (ofZ (strlen m)) (maxMessageSize s) = false ->
          exists h, fst (send m t d s) = Promise_of h)
      /\ fst (send m t d s) <> Throws_TypeError)
  /\ (forall m t d s h,
         reachable s ->
         fst (send m t d s) = Promise_of h ->
         (h < List.length (heap (snd (send m t d s))))%nat
         /\ promiseState (heap (snd (send m t d s))) h
            = promiseState (heap s) h).
Proof.
  split.
  - intros m t d s.
    destruct (num_ge (ofZ (strlen m)) (maxMessageSize s)) eqn:Hsz.
    + rewrite send_oversized by assumption. cbn [fst].
      repeat split; auto; discriminate.
    + destruct (send_accepts m t d s Hsz) as (q' & hp & h & _ & ->). cbn [fst].
      repeat split; try discriminate; eauto.
  - intros m t d s h Hr Hh.
    destruct (reachable_Linked s Hr) as (log & HL).
    pose proof (Linked_step s log (EvSend m t d) HL) as HL'.
    cbn [step sendLog] in HL'. rewrite app_nil_r in HL'.
    destruct HL' as [_ _ H3 _ _]. apply Forall_app in H3 as [_ H3].
    inversion H3 as [|? ? Ha _]; subst. unfold logAllocated in Ha.
    cbn [snd] in Ha. rewrite Hh in Ha. split; [exact Ha|].
    destruct (num_ge (ofZ (strlen m)) (maxMessageSize s)) eqn:Hsz.
    + now rewrite send_oversized.
    + destruct (send_accepts m t d s Hsz) as (q' & hp & h' & Hacc & E).
      rewrite E. cbn [snd]. rewrite heap_requestSend. cbn.
      destruct Hacc as [_ | q0 tail _ _]; [|reflexivity].
      unfold promiseState.
      destruct (Nat.lt_ge_cases h (List.length (heap s))) as [Hlt | Hge].
      * now rewrite app_nth1.
      * rewrite (nth_overflow (heap s)) by lia.
        rewrite app_nth2 by lia.
        destruct (h - List.length (heap s))%nat as [|[|k]]; reflexivity.
Qed.

Lemma X9_witness :
  (0 < List.length
         (heap (snd (send (text 10 97) (js "T") (js "D") exampleProducer))))%nat.
Proof.
  destruct X9_send_rejects_or_returns_a_handle as [_ H].
  apply (H (text 10 97) (js "T") (js "D") exampleProducer 0%nat).
  - exists (js "kafka:9092"), (js "rawdeltas"), (double 200), exampleClock, [].
    reflexivity.
  - reflexivity.
Defined.

(** ** Delivery reports and the rest of the producer *)

Lemma settle_app d v hp l :
  (d < List.length hp)%nat -> settle d v (hp ++ l) = settle d v hp ++ l.
Proof.
  revert d; induction hp as [|p hp IH]; intros d Hd; simpl in Hd; [lia|].
  destruct d; simpl.
  - destruct p; reflexivity.
  - destruct p; simpl; rewrite IH by lia; reflexivity.
Qed.

Lemma settle_S d v p hp : settle (S d) v (p :: hp) = p :: settle d v hp.
Proof. destruct p; reflexivity. Qed.

Lemma settle_O v p hp :
  settle O v (p :: hp) = match p with Pending => v | _ => p end :: hp.
Proof. destruct p; reflexivity. Qed.

Lemma settle_comm d d' v v' hp :
  d <> d' -> settle d v (settle d' v' hp) = settle d' v' (settle d v hp).
Proof.
  revert d d'; induction hp as [|p hp IH]; intros d d' Hne.
  - destruct d, d'; reflexivity.
  - destruct d as [|d], d' as [|d']; try congruence.
    + now rewrite settle_S, !settle_O, settle_S.
    + now rewrite settle_S, !settle_O, settle_S.
    + rewrite !settle_S. rewrite IH by congruence. reflexivity.
Qed.

Lemma sendPendingMessages_set_heap hp s :
  sendPendingMessages (set_heap hp s) = set_heap hp (sendPendingMessages s).
Proof. rewrite !sendPendingMessages_eq. reflexivity. Qed.

Lemma requestSend_set_heap hp s :
  requestSend (set_heap hp s) = set_heap hp (requestSend s).
Proof.
  unfold requestSend. cbn [connected pendingMessageCount sendPending set_heap].
  destruct (connected s); simpl negb; cbv iota; [|reflexivity].
  destruct (MaxBatchSize <=? pendingMessageCount s).
  - rewrite <- sendPendingMessages_set_heap. destruct (sendPending s); reflexivity.
  - destruct (sendPending s); reflexivity.
Qed.

Lemma runImmediate_set_heap hp s :
  runImmediate (set_heap hp s) = set_heap hp (runImmediate s).
Proof.
  unfold runImmediate. cbn [immediateQueue set_heap].
  destruct (immediateQueue s); [reflexivity|].
  rewrite !sendPendingMessages_eq. reflexivity.
Qed.

Lemma send_set_heap m t d d0 v s :
  (d0 < List.length (heap s))%nat ->
  send m t d (set_heap (settle d0 v (heap s)) s)
  = (fst (send m t d s),
     set_heap (settle d0 v (heap (snd (send m t d s)))) (snd (send m t d s))).
Proof.
  intros Hd.
  destruct (num_ge (ofZ (strlen m)) (maxMessageSize s)) eqn:Hsz.
  { rewrite (send_oversized m t d s Hsz).
    now rewrite (send_oversized m t d (set_heap (settle d0 v (heap s)) s)). }
  destruct (needsNewBoxcar (maxMessageSize s) (queueOf (streamKey t d) s) m) eqn:Hnew.
  - rewrite (send_new m t d s Hsz Hnew).
    rewrite (send_new m t d (set_heap (settle d0 v (heap s)) s) Hsz Hnew).
    cbn [fst snd]. rewrite heap_requestSend.
    cbn [heap set_heap acceptedState set_pendingMessageCount set_messages].
    rewrite settle_length, settle_app by exact Hd.
    rewrite <- requestSend_set_heap. reflexivity.
  - destruct (send_join m t d s Hsz Hnew) as (q0 & tail & E & Hfit & Es).
    destruct (send_join m t d (set_heap (settle d0 v (heap s)) s) Hsz Hnew)
      as (q1 & tail1 & E1 & _ & Es1).
    change (queueOf (streamKey t d) (set_heap (settle d0 v (heap s)) s))
      with (queueOf (streamKey t d) s) in E1.
    rewrite E in E1. apply app_inj_tail in E1 as [<- <-].
    rewrite Es, Es1. cbn [fst snd]. rewrite heap_requestSend.
    cbn [heap set_heap acceptedState set_pendingMessageCount set_messages].
    rewrite <- requestSend_set_heap. reflexivity.
Qed.

Lemma onDeliveryReport_eq e r s :
  onDeliveryReport e r s
  = set_heap (settle (opaque r)
                     (match e with Some x => Rejected x | None => Fulfilled end)
                     (heap s)) s.
Proof. destruct e; reflexivity. Qed.

(** X10.  A delivery report for an allocated handle can arrive before or
    after any other step of the producer: a [send], the connect callback,
    a turn of the event loop, a flush, or a report for another handle
    leads to the same state either way, and [send] returns the same
    promise whether or not the report has arrived. *)
Theorem X10_delivery_report_commutes :
  forall s e r ev,
    (opaque r < List.length (heap s))%nat ->
    (forall e' r', ev = EvDeliveryReport e' r' -> opaque r' <> opaque r) ->
    step (onDeliveryReport e r s) ev = onDeliveryReport e r (step s ev)
    /\ forall m t d,
        fst (send m t d (onDeliveryReport e r s)) = fst (send m t d s).
Proof.
  intros s e r ev Hd Hother. rewrite !onDeliveryReport_eq. split.
  - destruct ev as [m t d| e' data | | e' r' |]; cbn [step].
    + now rewrite send_set_heap.
    + unfold onConnect.
      change (set_connected true (set_heap ?hp s)) with (set_heap hp (set_connected true s)).
      rewrite requestSend_set_heap, heap_requestSend. reflexivity.
    + rewrite runImmediate_set_heap. f_equal.
      unfold runImmediate. destruct (immediateQueue s); [reflexivity|].
      rewrite sendPendingMessages_eq. reflexivity.
    + rewrite !onDeliveryReport_eq. cbn [heap set_heap].
      rewrite settle_comm by (apply (Hother e' r' eq_refl)).
      reflexivity.
    + rewrite sendPendingMessages_set_heap. f_equal.
      rewrite sendPendingMessages_eq. reflexivity.
  - intros m t d. now rewrite send_set_heap.
Qed.

Lemma X10_witness :
  step (onDeliveryReport
          (Some 5) (mkDeliveryReport 0%nat)
          (run exampleProducer
               [EvConnect None []; EvSend (text 10 97) (js "T") (js "D"); EvImmediate]))
       (EvSend (text 10 98) (js "T") (js "D"))
  = onDeliveryReport
      (Some 5) (mkDeliveryReport 0%nat)
      (step (run exampleProducer
                 [EvConnect None []; EvSend (text 10 97) (js "T") (js "D"); EvImmediate])
            (EvSend (text 10 98) (js "T") (js "D"))).
Proof.
  apply (X10_delivery_report_commutes
           (run exampleProducer
                [EvConnect None []; EvSend (text 10 97) (js "T") (js "D"); EvImmediate])
           (Some 5) (mkDeliveryReport 0%nat)
           (EvSend (text 10 98) (js "T") (js "D"))).
  - vm_compute. lia.
  - intros e' r' H. discriminate H.
Defined.

(** ** A promise settles only after its record was produced *)

Lemma promiseState_app_Pending hp h :
  promiseState (hp ++ [Pending]) h = promiseState hp h.
Proof.
  unfold promiseState.
  destruct (Nat.lt_ge_cases h (List.length hp)) as [Hlt | Hge].
  - now rewrite app_nth1.
  - rewrite (nth_overflow hp) by lia. rewrite app_nth2 by lia.
    destruct (h - List.length hp)%nat as [|[|k]]; reflexivity.
Qed.

Lemma promiseState_step s ev h :
  (forall e r, ev <> EvDeliveryReport e r) ->
  promiseState (heap (step s ev)) h = promiseState (heap s) h.
Proof.
  intros Hev. destruct ev as [m t d| e data | | e r |]; cbn [step].
  - destruct (num_ge (ofZ (strlen m)) (maxMessageSize s)) eqn:Hsz.
    + now rewrite send_oversized.
    + destruct (send_accepts m t d s Hsz) as (q' & hp & h' & Ha & ->). cbn [snd].
      rewrite heap_requestSend. cbn.
      destruct Ha as [_ | q0 tail _ _]; [apply promiseState_app_Pending | reflexivity].
  - unfold onConnect. now rewrite heap_requestSend.
  - unfold runImmediate. destruct (immediateQueue s); [reflexivity|].
    now rewrite sendPendingMessages_eq.
  - exfalso. exact (Hev e r eq_refl).
  - now rewrite sendPendingMessages_eq.
Qed.

Lemma produced_step s ev h :
  Inv s ->
  In h (map pc_opaque (producer s)) ->
  In h (map pc_opaque (producer (step s ev))).
Proof.
  intros HI Hin.
  destruct (flushesOrNot_step s ev HI) as [[-> _] | (bs & _ & -> & _)]; [exact Hin|].
  rewrite map_app. apply in_or_app. now left.
Qed.

Lemma settledProduced_step s ev :
  Inv s ->
  reportsProduced s [ev] ->
  settledProduced s -> settledProduced (step s ev).
Proof.
  intros HI [Hev _] H h Hh.
  destruct ev as [m t d| e data | | e r |];
    try (apply produced_step; [exact HI|]; apply H;
         rewrite promiseState_step in Hh by discriminate; exact Hh).
  cbn [step] in *. rewrite onDeliveryReport_eq in *. cbn [producer heap set_heap] in *.
  destruct (Nat.eq_dec h (opaque r)) as [-> | Hne]; [exact Hev|].
  apply H. now rewrite promiseState_settle_other in Hh.
Qed.

Lemma settledProduced_run evs s :
  Inv s ->
  reportsProduced s evs ->
  settledProduced s -> settledProduced (run s evs).
Proof.
  revert s; induction evs as [|ev evs IH]; intros s HI Hw H; [exact H|].
  destruct Hw as [Hev Hrest].
  change (run s (ev :: evs)) with (run (step s ev) evs).
  apply IH; [now apply Inv_step | exact Hrest |].
  apply settledProduced_step; [exact HI | split; [exact Hev | exact I] | exact H].
Qed.

Lemma NoDup_app_disjoint {A} (l l' : list A) a :
  NoDup (l ++ l') -> In a l -> In a l' -> False.
Proof.
  induction l as [|x l IH]; simpl; [tauto|].
  intros Hnd [-> | Hin] Hin'.
  - inversion Hnd as [|? ? Hn _]; subst. apply Hn, in_or_app. now right.
  - inversion Hnd; subst. eauto.
Qed.

(** X11.  Take a run in which every delivery report names a handle that
    was given to [produce] before.  Then a promise is settled only if its
    record was produced: every settled handle is the token of a produce
    call, and the handle of every boxcar that is still waiting in a queue
    is pending. *)
Theorem X11_settled_only_after_produced :
  forall endpoint tp (maxSize : spec_float) clk evs,
    reportsProduced (constructor endpoint tp maxSize clk) evs ->
    let s := run (constructor endpoint tp maxSize clk) evs in
    (forall h, promiseState (heap s) h <> Pending ->
               In h (map pc_opaque (producer s)))
    /\ Forall (fun b => promiseState (heap s) (bc_deferred b) = Pending)
              (allBoxcars s).
Proof.
  intros endpoint tp maxSize clk evs Hw s.
  assert (H : settledProduced s).
  { apply settledProduced_run; [apply Inv_constructor | exact Hw |].
    intros h Hh. exfalso. apply Hh. unfold promiseState. cbn.
    destruct h; reflexivity. }
  split; [exact H|].
  destruct (Linked_run evs _ [] (Linked_constructor endpoint tp maxSize clk))
    as [Hnd _ _ _ _].
  fold s in Hnd. unfold usedHandles in Hnd.
  apply Forall_forall. intros b Hb.
  destruct (promiseState (heap s) (bc_deferred b)) eqn:E; [reflexivity | |];
    exfalso;
    (apply (NoDup_app_disjoint _ _ (bc_deferred b) Hnd);
     [now apply in_map | apply H; rewrite E; discriminate]).
Qed.

Lemma X11_witness :
  Forall (fun b =>
            promiseState
              (heap (run exampleProducer
                         [EvConnect None [];
                          EvSend (text 10 97) (js "T") (js "D");
                          EvImmediate;
                          EvSend (text 10 98) (js "T") (js "D");
                          EvDeliveryReport (Some 9) (mkDeliveryReport 0%nat)]))
              (bc_deferred b)
            = Pending)
         (allBoxcars (run exampleProducer
                          [EvConnect None [];
                           EvSend (text 10 97) (js "T") (js "D");
                           EvImmediate;
                           EvSend (text 10 98) (js "T") (js "D");
                           EvDeliveryReport (Some 9) (mkDeliveryReport 0%nat)])).
Proof.
  apply (X11_settled_only_after_produced
           (js "kafka:9092") (js "rawdeltas") (double 200) exampleClock
           [EvConnect None [];
            EvSend (text 10 97) (js "T") (js "D");
            EvImmediate;
            EvSend (text 10 98) (js "T") (js "D");
            EvDeliveryReport (Some 9) (mkDeliveryReport 0%nat)]).
  vm_compute. repeat (split; [exact I|]).
  split; [left; reflexivity | exact I].
Defined.

(** * Properties of the key-vault script *)

Lemma String_split_nonempty sep s : String_split sep s <> [].
Proof.
  destruct s as [|c rest]; simpl; [discriminate|].
  destruct (N.eqb c sep); [discriminate|].
  destruct (String_split sep rest); discriminate.
Qed.

Lemma String_split_no_sep sep s : ~ In sep s -> String_split sep s = [s].
Proof.
  induction s as [|c rest IH]; intros H; [reflexivity|].
  simpl. destruct (N.eqb_spec c sep) as [-> | Hne].
  - exfalso. apply H. now left.
  - rewrite IH; [reflexivity|]. intros Hin. apply H. now right.
Qed.

Lemma String_split_app sep a b :
  String_split sep (a ++ sep :: b) = String_split sep a ++ String_split sep b.
Proof.
  induction a as [|c a IH]; simpl.
  - now rewrite N.eqb_refl.
  - destruct (N.eqb c sep); rewrite IH; [reflexivity|].
    destruct (String_split sep a) eqn:E; [|reflexivity].
    now apply String_split_nonempty in E.
Qed.

Lemma last_sep_split sep (s : JsString) :
  In sep s -> exists a b, s = a ++ sep :: b /\ ~ In sep b.
Proof.
  induction s as [|c rest IH]; intros H; [destruct H|].
  destruct (in_dec N.eq_dec sep rest) as [Hin | Hnot].
  - destruct (IH Hin) as (a & b & -> & Hb). exists (c :: a), b. auto.
  - destruct H as [-> | H]; [|contradiction]. exists [], rest. auto.
Qed.

Lemma Array_join_cons sep x y rest :
  Array_join sep (x :: y :: rest) = x ++ sep ++ Array_join sep (y :: rest).
Proof. reflexivity. Qed.

Lemma Array_join_head sep c piece pieces :
  Array_join sep ((c :: piece) :: pieces) = c :: Array_join sep (piece :: pieces).
Proof. destruct pieces; reflexivity. Qed.

Lemma envNameOf_replaces s : envNameOf s = dashesToUnderscores s.
Proof.
  unfold envNameOf. induction s as [|c rest IH]; [reflexivity|].
  cbn [String_split dashesToUnderscores flat_map].
  destruct (String_split dash rest) as [|p ps] eqn:E;
    [now apply String_split_nonempty in E|].
  unfold dashesToUnderscores in IH.
  destruct (N.eqb c dash); cbv iota; rewrite ?Array_join_head, <- IH; reflexivity.
Qed.

Lemma dashesToUnderscores_no_dash s : ~ In dash (dashesToUnderscores s).
Proof.
  induction s as [|c rest IH]; simpl; [tauto|].
  destruct (N.eqb_spec c dash) as [-> | Hne]; simpl.
  - intros [H | [H | H]]; [discriminate H | discriminate H | auto].
  - intros [H | H]; [congruence | auto].
Qed.

Lemma dashesToUnderscores_length s :
  List.length (dashesToUnderscores s)
  = (List.length s + count_occ N.eq_dec s dash)%nat.
Proof.
  induction s as [|c rest IH]; simpl; [reflexivity|].
  destruct (N.eqb_spec c dash) as [-> | Hne];
    destruct (N.eq_dec _ dash); try congruence; simpl; rewrite IH; lia.
Qed.

Lemma dashesToUnderscores_id s : ~ In dash s -> dashesToUnderscores s = s.
Proof.
  induction s as [|c rest IH]; simpl; intros H; [reflexivity|].
  destruct (N.eqb_spec c dash) as [-> | Hne]; [exfalso; auto|].
  simpl. f_equal. apply IH. auto.
Qed.

(** X12.  The name of the environment variable is the name of the secret
    with every dash replaced by two underscores: it has no dash, every
    other code unit is kept in place, it is longer by the number of
    dashes, and a name without a dash is left as it is. *)
Theorem X12_env_name_replaces_dashes :
  forall s,
    envNameOf s = dashesToUnderscores s
    /\ ~ In dash (envNameOf s)
    /\ strlen (envNameOf s) = strlen s + Z.of_nat (count_occ N.eq_dec s dash)
    /\ (~ In dash s -> envNameOf s = s).
Proof.
  intros s. rewrite envNameOf_replaces. split; [reflexivity|]. split; [|split].
  - apply dashesToUnderscores_no_dash.
  - unfold strlen. rewrite dashesToUnderscores_length. lia.
  - apply dashesToUnderscores_id.
Qed.

Lemma X12_witness : envNameOf (js "storage") = js "storage".
Proof.
  destruct (X12_env_name_replaces_dashes (js "storage")) as (_ & _ & _ & H).
  apply H. apply absent_by_comparison. reflexivity.
Defined.

Lemma dashesToUnderscores_injective a b :
  ~ In underscore a -> ~ In underscore b ->
  dashesToUnderscores a = dashesToUnderscores b -> a = b.
Proof.
  revert b; induction a as [|x a IH]; intros [|y b] Ha Hb H.
  - reflexivity.
  - simpl in H. destruct (N.eqb y dash); discriminate H.
  - simpl in H. destruct (N.eqb x dash); discriminate H.
  - assert (Hx : x <> underscore) by (intros ->; apply Ha; now left).
    assert (Hy : y <> underscore) by (intros ->; apply Hb; now left).
    assert (Ha' : ~ In underscore a) by (intros Hin; apply Ha; now right).
    assert (Hb' : ~ In underscore b) by (intros Hin; apply Hb; now right).
    simpl in H.
    destruct (N.eqb_spec x dash) as [-> | Hxd];
      destruct (N.eqb_spec y dash) as [-> | Hyd]; simpl in H.
    + injection H as H. f_equal. now apply IH.
    + injection H as H _. congruence.
    + injection H as H _. congruence.
    + injection H as H H'. subst y. f_equal. now apply IH.
Qed.

(** X13.  Secret names do not contain underscores, as the script notes;
    for such names the environment names never collide: two names that
    give the same environment name are the same name. *)
Theorem X13_env_names_do_not_collide :
  forall a b,
    ~ In underscore a -> ~ In underscore b ->
    envNameOf a = envNameOf b -> a = b.
Proof.
  intros a b Ha Hb. rewrite !envNameOf_replaces.
  now apply dashesToUnderscores_injective.
Qed.

Lemma X13_witness : js "a-b" = [97; 45; 98]%N.
Proof.
  apply (X13_env_names_do_not_collide (js "a-b") [97; 45; 98]%N).
  - apply absent_by_comparison. reflexivity.
  - apply absent_by_comparison. reflexivity.
  - reflexivity.
Defined.

Lemma last_app_single {A} (l : list A) x d : last (l ++ [x]) d = x.
Proof. apply last_last. Qed.

Lemma secretNameOf_after_last_slash a b :
  ~ In slash b -> secretNameOf (a ++ slash :: b) = Some b.
Proof.
  intros Hb. unfold secretNameOf.
  rewrite String_split_app, (String_split_no_sep slash b Hb).
  unfold Array_pop.
  destruct (String_split slash a ++ [b]) as [|p ps] eqn:E.
  - destruct (String_split slash a); discriminate E.
  - rewrite <- E. now rewrite last_last.
Qed.

(** X14.  The name of a secret is what follows the last slash of its id:
    the whole id when it has no slash, the empty name when it ends with a
    slash.  It is always defined and never contains a slash. *)
Theorem X14_secret_name_follows_last_slash :
  (forall id, ~ In slash id -> secretNameOf id = Some id)
  /\ (forall a b, ~ In slash b -> secretNameOf (a ++ slash :: b) = Some b)
  /\ (forall id, exists name prefix,
         secretNameOf id = Some name
         /\ id = prefix ++ name
         /\ ~ In slash name).
Proof.
  assert (H1 : forall id, ~ In slash id -> secretNameOf id = Some id).
  { intros id H. unfold secretNameOf. now rewrite String_split_no_sep. }
  split; [exact H1|]. split; [exact secretNameOf_after_last_slash|].
  intros id. destruct (in_dec N.eq_dec slash id) as [Hin | Hnot].
  - destruct (last_sep_split slash id Hin) as (a & b & -> & Hb).
    exists b, (a ++ [slash]). rewrite secretNameOf_after_last_slash by exact Hb.
    rewrite <- app_assoc. auto.
  - exists id, []. auto.
Qed.

Lemma X14_witness :
  secretNameOf (js "https://prague-key-vault.vault.azure.net/secrets/alfred-key")
  = Some (js "alfred-key").
Proof.
  destruct X14_secret_name_follows_last_slash as (_ & H & _).
  apply (H (js "https://prague-key-vault.vault.azure.net/secrets") (js "alfred-key")).
  apply absent_by_comparison. reflexivity.
Defined.

Lemma shellOf_last_segment dir x :
  ~ In slash x -> x <> [] -> shellOf (Some (dir ++ slash :: x)) = Some x.
Proof.
  intros Hx Hne. unfold shellOf.
  replace (truthy (dir ++ slash :: x)) with true by (destruct dir; reflexivity).
  fold (secretNameOf (dir ++ slash :: x)).
  now apply secretNameOf_after_last_slash.
Qed.

Lemma shellOf_bare x :
  ~ In slash x -> x <> [] -> shellOf (Some x) = Some x.
Proof.
  intros Hx Hne. unfold shellOf. destruct x as [|c x]; [congruence|].
  cbn [truthy]. now rewrite String_split_no_sep.
Qed.

(** X15.  [setEnv] looks only at what follows the last slash of [SHELL]:
    the command is the same whatever directory the shell is in.  When
    [SHELL] is unset or empty, the command is the one for Windows.  Only
    for fish is a shell passed to [exec], and it is [SHELL] as it is. *)
Theorem X15_setEnv_uses_last_segment_of_SHELL :
  (forall dir x name value,
      ~ In slash x -> x <> [] ->
      ex_command (setEnv (Some (dir ++ slash :: x)) name value)
      = ex_command (setEnv (Some x) name value))
  /\ (forall name value,
         setEnv None name value = setxCall name value
         /\ setEnv (Some []) name value = setxCall name value)
  /\ (forall SHELL name value sh,
         ex_shell (setEnv SHELL name value) = Some sh ->
         SHELL = Some sh /\ shellOf SHELL = Some (js "fish")).
Proof.
  split; [|split].
  - intros dir x name value Hx Hne. unfold setEnv.
    rewrite shellOf_last_segment, shellOf_bare by assumption.
    destruct (str_eqb x (js "bash")); [reflexivity|].
    destruct (str_eqb x (js "zsh")); [reflexivity|].
    destruct (str_eqb x (js "fish")); reflexivity.
  - intros name value. split; reflexivity.
  - intros SHELL name value sh. unfold setEnv.
    destruct (shellOf SHELL) as [shell|] eqn:E; [|discriminate].
    destruct (str_eqb shell (js "bash")); [discriminate|].
    destruct (str_eqb shell (js "zsh")); [discriminate|].
    destruct (str_eqb shell (js "fish")) eqn:F; [|discriminate].
    apply str_eqb_eq in F. subst shell. cbn [ex_shell].
    intros ->. auto.
Qed.

Lemma X15_witness :
  ex_command (setEnv (Some (js "/usr/local/bin" ++ slash :: js "zsh")) (js "N") (js "v"))
  = ex_command (setEnv (Some (js "zsh")) (js "N") (js "v")).
Proof.
  destruct X15_setEnv_uses_last_segment_of_SHELL as (H & _ & _).
  apply H.
  - apply absent_by_comparison. reflexivity.
  - discriminate.
Defined.
